(** * Robust Equal Improvability: the adversarial trainer of [src/ei_model.py]

    A shallow embedding of [fair_batch_proxy], [covariance_proxy],
    [EIModel.train] and [EIModel.predict], and the properties of the
    specification that can be settled on it.

    Modelling conventions.
    - A tensor element or a Python float is a [float]: an exact rational, or
      one of the IEEE specials +inf, -inf, NaN.  Arithmetic on finite values
      is exact: rounding, overflow and the sign of zero are not modelled.
    - A one-dimensional tensor is a [list float]; a parameter tensor keeps its
      shape next to its flattened data.
    - Python exceptions are values of [exn]; a computation that can raise
      returns a [result].
    - Parameters live in a heap indexed by the identity of the
      [torch.nn.Parameter] object, so that [deepcopy] and in-place updates
      are visible.
    - The collaborators that the source imports but does not define (the
      model's forward function, the effort transform, the binary
      cross-entropy, automatic differentiation, the update rule of Adam, the
      data loader) are the fields of the class [Environment]. *)

From Stdlib Require Import QArith Qcanon.
From stdpp Require Import base numbers list gmap strings.

Local Open Scope Qc_scope.

(** ** Python exceptions and fallible computations *)

Inductive exn : Type :=
  | UnboundLocalError (name : string)
  | TypeError (msg : string)
  | RuntimeError (msg : string)
  | IndexError (msg : string)
  | AttributeError (name : string).

Inductive result (A : Type) : Type :=
  | Ok (a : A)
  | Raise (e : exn).
Arguments Ok {A} a.
Arguments Raise {A} e.

Global Instance result_ret : MRet result := @Ok.
Global Instance result_bind : MBind result := λ A B f r,
  match r with
  | Ok a => f a
  | Raise e => Raise e
  end.

(** ** Floating-point values *)

Module Float.

Inductive float : Type :=
  | Fin (q : Qc)
  | PInf
  | NInf
  | NaN.

Definition of_nat (n : nat) : float := Fin (Qc_of_Z (Z.of_nat n)).
Definition zero : float := Fin 0.
Definition one : float := Fin 1.

Definition isnan (x : float) : bool :=
  match x with NaN => true | _ => false end.

Definition isfinite (x : float) : bool :=
  match x with Fin _ => true | _ => false end.

(** The infinity with the sign of a comparison against zero; [NaN] when the
    comparison says zero (as in [0 * inf] and [0 / 0]). *)
Definition inf_of_sign (c : comparison) : float :=
  match c with
  | Gt => PInf
  | Lt => NInf
  | Eq => NaN
  end.

Definition neg (x : float) : float :=
  match x with
  | Fin q => Fin (- q)
  | PInf => NInf
  | NInf => PInf
  | NaN => NaN
  end.

Definition add (x y : float) : float :=
  match x, y with
  | NaN, _ | _, NaN => NaN
  | Fin a, Fin b => Fin (a + b)
  | PInf, NInf | NInf, PInf => NaN
  | PInf, _ | _, PInf => PInf
  | NInf, _ | _, NInf => NInf
  end.

Definition sub (x y : float) : float := add x (neg y).

Definition mul (x y : float) : float :=
  match x, y with
  | NaN, _ | _, NaN => NaN
  | Fin a, Fin b => Fin (a * b)
  | Fin a, PInf | PInf, Fin a => inf_of_sign (a ?= 0)
  | Fin a, NInf | NInf, Fin a => inf_of_sign (0 ?= a)
  | PInf, PInf | NInf, NInf => PInf
  | PInf, NInf | NInf, PInf => NInf
  end.

Definition div (x y : float) : float :=
  match x, y with
  | NaN, _ | _, NaN => NaN
  | Fin a, Fin b =>
      if bool_decide (b = 0) then inf_of_sign (a ?= 0) else Fin (a / b)
  | Fin _, _ => Fin 0
  | PInf, Fin b => if bool_decide (b < 0) then NInf else PInf
  | NInf, Fin b => if bool_decide (b < 0) then PInf else NInf
  | _, _ => NaN
  end.

Definition abs (x : float) : float :=
  match x with
  | Fin q => if bool_decide (q < 0) then Fin (- q) else Fin q
  | PInf | NInf => PInf
  | NaN => NaN
  end.

Definition square (x : float) : float := mul x x.

(** Comparisons; every comparison with [NaN] is false. *)
Definition eqb (x y : float) : bool :=
  match x, y with
  | Fin a, Fin b => bool_decide (a = b)
  | PInf, PInf | NInf, NInf => true
  | _, _ => false
  end.

Definition ltb (x y : float) : bool :=
  match x, y with
  | NaN, _ | _, NaN => false
  | Fin a, Fin b => bool_decide (a < b)
  | NInf, NInf => false
  | NInf, _ => true
  | _, PInf => match x with PInf => false | _ => true end
  | _, _ => false
  end.

Definition leb (x y : float) : bool :=
  match x, y with
  | NaN, _ | _, NaN => false
  | Fin a, Fin b => bool_decide (a ≤ b)
  | NInf, _ => true
  | _, PInf => true
  | _, _ => false
  end.

(** [torch.clamp]: [min (max x lo) hi], and [NaN] as soon as one of the
    three is [NaN]. *)
Definition clamp (x lo hi : float) : float :=
  if isnan x || isnan lo || isnan hi then NaN
  else
    let m := if ltb x lo then lo else x in
    if ltb hi m then hi else m.

End Float.
Export Float.

Global Instance float_eq_dec : EqDecision float.
Proof. solve_decision. Defined.

Declare Scope float_scope.
Delimit Scope float_scope with F.
Infix "+" := Float.add : float_scope.
Infix "-" := Float.sub : float_scope.
Infix "*" := Float.mul : float_scope.
Infix "/" := Float.div : float_scope.

(** ** One-dimensional tensors *)

Module torch.

Definition ones (n : nat) : list float := replicate n one.

(** [torch.sum] *)
Definition sum (t : list float) : float := foldr Float.add zero t.

(** [torch.mean]: the sum over the number of elements; [NaN] on an empty
    tensor, where the division is [0 / 0]. *)
Definition mean (t : list float) : float := (sum t / of_nat (length t))%F.

(** [int(mask.sum())] for a boolean tensor *)
Definition count (mask : list bool) : nat := length (filter (λ b, b = true) mask).

(** [t[mask]]: the elements where the mask is set; the mask must have the
    shape of [t]. *)
Fixpoint select {A} (t : list A) (mask : list bool) : list A :=
  match t, mask with
  | x :: t', b :: mask' => if b then x :: select t' mask' else select t' mask'
  | _, _ => []
  end.

Definition index_mask {A} (t : list A) (mask : list bool) : result (list A) :=
  if bool_decide (length mask = length t) then Ok (select t mask)
  else Raise (IndexError "The shape of the mask does not match the shape of the indexed tensor").

(** Element-wise binary operation on one-dimensional tensors with torch's
    broadcasting: equal sizes, or one operand of size one. *)
Definition broadcast (f : float → float → float) (a b : list float)
  : result (list float) :=
  if bool_decide (length a = length b) then Ok (zip_with f a b)
  else match a, b with
       | [x], _ => Ok (f x <$> b)
       | _, [y] => Ok ((λ x, f x y) <$> a)
       | _, _ => Raise (RuntimeError "The size of tensor a must match the size of tensor b")
       end.

(** [torch.nn.MSELoss(reduction='mean')] on an input and a target of the
    same size. *)
Definition MSELoss (input target : list float) : float :=
  mean (zip_with (λ x t, square (x - t)%F) input target).

End torch.

(** ** The fairness proxies *)

(** One round of the loop [for z in [0,1]] of [fair_batch_proxy]. *)
Definition fair_batch_group (Z Y_hat_max : list float) (loss_mean : float)
    (proxy_value : float) (z : nat) : result float :=
  let group_idx := (λ v, Float.eqb v (of_nat z)) <$> Z in
  loss_z ←
    (if bool_decide (torch.count group_idx = 0%nat) then Ok zero
     else
       sel ← torch.index_mask Y_hat_max group_idx;
       Ok (torch.MSELoss sel (torch.ones (torch.count group_idx))));
  Ok (proxy_value + Float.abs (loss_z - loss_mean))%F.

Definition fair_batch_proxy (Z Y_hat_max : list float) : result float :=
  let proxy_value := zero in
  let loss_mean := torch.MSELoss Y_hat_max (torch.ones (length Y_hat_max)) in
  foldl (λ acc z, proxy_value ← acc; fair_batch_group Z Y_hat_max loss_mean proxy_value z)
        (Ok proxy_value) [0%nat; 1%nat].

Definition covariance_proxy (Z Y_hat_max : list float) : result float :=
  let centred := (λ z, (z - torch.mean Z)%F) <$> Z in
  prod ← torch.broadcast Float.mul centred Y_hat_max;
  Ok (square (torch.mean prod)).


(** ** Parameter tensors *)

Record tensor : Type := { shape : list nat; data : list float }.

Global Instance tensor_eq_dec : EqDecision tensor.
Proof. solve_decision. Defined.

Global Instance tensor_inhabited : Inhabited tensor :=
  populate {| shape := [0%nat]; data := [] |}.

Module Tensor.

(** A Python float used where torch expects a tensor: a zero-dimensional
    tensor. *)
Definition scalar (x : float) : tensor := {| shape := []; data := [x] |}.

(** [t + a] and [t - a] for a Python float [a] *)
Definition add_scalar (t : tensor) (a : float) : tensor :=
  {| shape := shape t; data := (λ x, x + a)%F <$> data t |}.
Definition sub_scalar (t : tensor) (a : float) : tensor :=
  {| shape := shape t; data := (λ x, x - a)%F <$> data t |}.

(** [t.item()] *)
Definition item (t : tensor) : result float :=
  match data t with
  | [x] => Ok x
  | _ => Raise (RuntimeError "a Tensor with several elements cannot be converted to Scalar")
  end.

(** Broadcasting of shapes, dimensions aligned from the right. *)
Fixpoint broadcast_dims (r1 r2 : list nat) : option (list nat) :=
  match r1, r2 with
  | [], r | r, [] => Some r
  | a :: r1', b :: r2' =>
      r ← broadcast_dims r1' r2';
      if bool_decide (a = b) then Some (a :: r)
      else if bool_decide (a = 1%nat) then Some (b :: r)
      else if bool_decide (b = 1%nat) then Some (a :: r)
      else None
  end.

Definition broadcast_shapes (s1 s2 : list nat) : option (list nat) :=
  reverse <$> broadcast_dims (reverse s1) (reverse s2).

(** The first [n] consecutive chunks of [k] elements. *)
Fixpoint chunks (k n : nat) (d : list float) : list (list float) :=
  match n with
  | O => []
  | S n' => take k d :: chunks k n' (drop k d)
  end.

(** Row-major data of a tensor of shape [s] expanded to the shape [target]
    it broadcasts to. *)
Fixpoint expand (s target : list nat) (d : list float) : list float :=
  match target with
  | [] => d
  | n :: target' =>
      if bool_decide (length s < length target)%nat
      then mjoin (replicate n (expand s target' d))
      else match s with
           | [] => d
           | m :: s' =>
               if bool_decide (m = n)
               then mjoin (expand s' target' <$> chunks (foldr Nat.mul 1%nat s') m d)
               else mjoin (replicate n (expand s' target' d))
           end
  end.

Fixpoint zip3_with (f : float → float → float → float) (a b c : list float)
  : list float :=
  match a, b, c with
  | x :: a', y :: b', z :: c' => f x y z :: zip3_with f a' b' c'
  | _, _, _ => []
  end.

(** [t.clamp(lo, hi)], element by element.  When the bounds have the shape
    of [t] no broadcasting takes place; otherwise the three operands are
    expanded to their common shape, and torch raises when there is none. *)
Definition clamp (t lo hi : tensor) : result tensor :=
  if bool_decide (shape lo = shape t ∧ shape hi = shape t)
  then Ok {| shape := shape t;
             data := zip3_with Float.clamp (data t) (data lo) (data hi) |}
  else
    match s ← broadcast_shapes (shape t) (shape lo); broadcast_shapes s (shape hi) with
    | Some s =>
        Ok {| shape := s;
              data := zip3_with Float.clamp
                        (expand (shape t) s (data t))
                        (expand (shape lo) s (data lo))
                        (expand (shape hi) s (data hi)) |}
    | None => Raise (RuntimeError "The size of tensor a must match the size of tensor b")
    end.

End Tensor.

(** ** The heap of parameters and the model object *)

(** The identity of a [torch.nn.Parameter]. *)
Definition loc : Type := positive.

(** A module of [model.layers]: [hasattr(module, 'weight')] and
    [hasattr(module, 'bias')] are the two options. *)
Record layer : Type := { weight : option loc; bias : option loc }.

Global Instance layer_eq_dec : EqDecision layer.
Proof. solve_decision. Defined.

(** The attributes of the [EIModel] instance that change, and the parameter
    storage they point into. *)
Record world : Type := {
  heap : gmap loc tensor;
  model_adv : option (list layer)
}.

Definition set_heap (h : gmap loc tensor) (w : world) : world :=
  {| heap := h; model_adv := model_adv w |}.
Definition set_model_adv (m : list layer) (w : world) : world :=
  {| heap := heap w; model_adv := Some m |}.

(** [param.data] *)
Definition read (w : world) (l : loc) : tensor := heap w !!! l.

(** The values of the parameters of a model, layer by layer. *)
Definition layer_values : Type := option tensor * option tensor.
Definition state_dict (w : world) (m : list layer) : list layer_values :=
  (λ ly, (read w <$> weight ly, read w <$> bias ly)) <$> m.

(** [model.parameters()]: every parameter once, weight before bias, in layer
    order. *)
Definition parameters (m : list layer) : list loc :=
  remove_dups (m ≫= λ ly, option_list (weight ly) ++ option_list (bias ly)).

(** *** Computations over the world that may raise *)

Definition M (A : Type) : Type := world → result A * world.

Global Instance M_ret : MRet M := λ A a w, (Ok a, w).
Global Instance M_bind : MBind M := λ A B f m w,
  match m w with
  | (Ok a, w') => f a w'
  | (Raise e, w') => (Raise e, w')
  end.

Definition lift {A} (r : result A) : M A := λ w, (r, w).
Definition raise {A} (e : exn) : M A := λ w, (Raise e, w).
Definition get : M world := λ w, (Ok w, w).
Definition modify (f : world → world) : M unit := λ w, (Ok tt, f w).

(** Reading a local variable that may not have been assigned yet. *)
Definition local {A} (name : string) (v : option A) : M A :=
  match v with
  | Some a => mret a
  | None => raise (UnboundLocalError name)
  end.

(** Reading an attribute of [self] that may not have been set yet. *)
Definition attribute {A} (name : string) (v : option A) : M A :=
  match v with
  | Some a => mret a
  | None => raise (AttributeError name)
  end.

(** [param.data = t] *)
Definition write (l : loc) (t : tensor) : M unit :=
  modify (λ w, set_heap (<[l := t]> (heap w)) w).

(** [for x in xs: body(x)] *)
Fixpoint for_each {A} (xs : list A) (body : A → M unit) : M unit :=
  match xs with
  | [] => mret tt
  | x :: xs' => body x ;; for_each xs' body
  end.

(** *** [copy.deepcopy] of the model *)

(** A new parameter object holding [t]. *)
Definition alloc (t : tensor) : M loc := λ w,
  let l := fresh (dom (heap w)) in
  (Ok l, set_heap (<[l := t]> (heap w)) w).

(** Each parameter is copied once: the memo maps an original to its copy, so
    that parameters shared between layers stay shared in the copy. *)
Definition deepcopy_param (memo : gmap loc loc) (l : loc) : M (loc * gmap loc loc) :=
  match memo !! l with
  | Some l' => mret (l', memo)
  | None =>
      w ← get;
      l' ← alloc (read w l);
      mret (l', <[l := l']> memo)
  end.

Definition deepcopy_attr (memo : gmap loc loc) (a : option loc)
  : M (option loc * gmap loc loc) :=
  match a with
  | Some l => '(l', memo') ← deepcopy_param memo l; mret (Some l', memo')
  | None => mret (None, memo)
  end.

Fixpoint deepcopy_layers (memo : gmap loc loc) (m : list layer) : M (list layer) :=
  match m with
  | [] => mret []
  | ly :: m' =>
      '(w', memo1) ← deepcopy_attr memo (weight ly);
      '(b', memo2) ← deepcopy_attr memo1 (bias ly);
      rest ← deepcopy_layers memo2 m';
      mret ({| weight := w'; bias := b' |} :: rest)
  end.

Definition deepcopy (m : list layer) : M (list layer) := deepcopy_layers ∅ m.

(** ** Collaborators *)

(** A batch of feature rows. *)
Definition features : Type := list (list float).

(** [FairnessDataset]: the row-aligned tensors [X], [Y] and [Z]. *)
Record FairnessDataset : Type := {
  ds_X : features;
  ds_Y : list float;
  ds_Z : list float
}.

(** One item of the data loader: [(X_batch, Y_batch, Z_batch)]. *)
Definition batch : Type := features * list float * list float.

(** The keyword arguments of [optim.Adam]. *)
Record Adam_config : Type := {
  lr : float;
  weight_decay : float;
  maximize : bool
}.

(** What the source imports and calls but does not define.
    - [forward θ X] is [model(X).reshape(-1)] for a model whose parameters
      have the values [θ];
    - [BCELoss] is [torch.nn.BCELoss(reduction='mean')];
    - [autograd L θ k i] is the derivative that [backward()] leaves in element
      [i] of parameter [k] (in the order of [parameters]) for a loss that
      depends on the parameters as [L], at the values [θ];
    - Adam updates every element of every parameter from its value, its
      gradient, the step count and the running moments;
    - [DataLoader dataset batch_size epoch] lists the batches of one pass
      over the shuffled dataset (the generator is seeded, so the passes are
      determined). *)
Class Environment : Type := {
  forward : list layer_values → features → list float;
  BCELoss : list float → list float → float;
  autograd : (list layer_values → float) → list layer_values → nat → nat → float;
  adam_moments : Type;
  adam_init : adam_moments;
  adam_update : Adam_config → nat → adam_moments → nat → nat → float → float → float;
  adam_next : Adam_config → adam_moments → (nat → nat → float) → adam_moments;
  DataLoader : FairnessDataset → nat → nat → list batch
}.

(** [optim.Adam]: the parameters it was given, its configuration, and its
    state. *)
Record optimizer `{Environment} : Type := {
  opt_params : list loc;
  opt_config : Adam_config;
  opt_steps : nat;
  opt_moments : adam_moments
}.

(** The fields of an [EIModel] that never change. *)
Record EIModel : Type := {
  model : list layer;
  proxy : list float → list float → result float;
  effort : list layer_values → FairnessDataset → features → features;
  tau : float
}.

(** The locals [weight_min], [weight_max], [bias_min], [bias_max]: unbound
    until a layer with the attribute has been seen. *)
Record bounds : Type := {
  weight_min : option tensor;
  weight_max : option tensor;
  bias_min : option tensor;
  bias_max : option tensor
}.

Definition unbound : bounds :=
  {| weight_min := None; weight_max := None; bias_min := None; bias_max := None |}.

(** The locals of [train] that live across batches. *)
Record train_state `{Environment} : Type := {
  optimizer_ : optimizer;
  prev_loss : float;
  batch_losses : list float
}.

Module torch_dyn.

(** A Python value handed to a torch function. *)
Inductive pyobj : Type :=
  | PyList (l : list float)
  | PyTensor (t : list float).

(** [torch.mean(input)] checks that [input] is a tensor. *)
Definition mean (input : pyobj) : result float :=
  match input with
  | PyTensor t => Ok (torch.mean t)
  | PyList _ => Raise (TypeError "mean(): argument 'input' (position 1) must be Tensor, not list")
  end.

End torch_dyn.

(** The value of a loss whose forward pass succeeded. *)
Definition loss_value (r : result float) : float :=
  match r with
  | Ok v => v
  | Raise _ => NaN
  end.

(** ** The optimizer *)

Section Optimizer.
Context `{Environment}.

Definition Adam (params : list loc) (config : Adam_config) : optimizer :=
  {| opt_params := params; opt_config := config;
     opt_steps := 0; opt_moments := adam_init |}.

(** The in-place update of parameter [k] by one step. *)
Definition adam_step_tensor (o : optimizer) (grads : nat → nat → float)
    (k : nat) (t : tensor) : tensor :=
  {| shape := shape t;
     data := imap (λ i x, adam_update (opt_config o) (S (opt_steps o))
                            (opt_moments o) k i x (grads k i)) (data t) |}.

Fixpoint adam_step_params (o : optimizer) (grads : nat → nat → float)
    (k : nat) (ps : list loc) : M unit :=
  match ps with
  | [] => mret tt
  | l :: ps' =>
      w ← get;
      write l (adam_step_tensor o grads k (read w l));;
      adam_step_params o grads (S k) ps'
  end.

(** [optimizer.step()] after [backward()] has produced [grads]. *)
Definition step (o : optimizer) (grads : nat → nat → float) : M optimizer :=
  adam_step_params o grads 0 (opt_params o);;
  mret {| opt_params := opt_params o; opt_config := opt_config o;
          opt_steps := S (opt_steps o);
          opt_moments := adam_next (opt_config o) (opt_moments o) grads |}.

End Optimizer.

(** ** The box and its projection *)

(** Lines 83-89 of [train]: the last layer with the attribute wins. *)
Definition train_box (w : world) (m : list layer) (curr_alpha : float) : bounds :=
  foldl (λ b module,
    let b1 :=
      match weight module with
      | Some l =>
          {| weight_min := Some (Tensor.sub_scalar (read w l) curr_alpha);
             weight_max := Some (Tensor.add_scalar (read w l) curr_alpha);
             bias_min := bias_min b; bias_max := bias_max b |}
      | None => b
      end in
    match bias module with
    | Some l =>
        {| weight_min := weight_min b1; weight_max := weight_max b1;
           bias_min := Some (Tensor.sub_scalar (read w l) curr_alpha);
           bias_max := Some (Tensor.add_scalar (read w l) curr_alpha) |}
    | None => b1
    end) unbound m.

(** Lines 164-170 of [predict]: the bias bounds go through [item()]. *)
Definition predict_box_layer (w : world) (alpha : float) (b : bounds)
    (module : layer) : result bounds :=
  let b1 :=
    match weight module with
    | Some l =>
        {| weight_min := Some (Tensor.sub_scalar (read w l) alpha);
           weight_max := Some (Tensor.add_scalar (read w l) alpha);
           bias_min := bias_min b; bias_max := bias_max b |}
    | None => b
    end in
  match bias module with
  | Some l =>
      lo ← Tensor.item (read w l);
      hi ← Tensor.item (read w l);
      Ok {| weight_min := weight_min b1; weight_max := weight_max b1;
            bias_min := Some (Tensor.scalar (lo - alpha)%F);
            bias_max := Some (Tensor.scalar (hi + alpha)%F) |}
  | None => Ok b1
  end.

Definition predict_box (w : world) (m : list layer) (alpha : float) : result bounds :=
  foldl (λ acc module, b ← acc; predict_box_layer w alpha b module) (Ok unbound) m.

(** [param.data = param.data.clamp(lo, hi)] when the attribute exists. *)
Definition clamp_attr (a : option loc) (lo hi : tensor) : M unit :=
  match a with
  | Some l =>
      w ← get;
      t ← lift (Tensor.clamp (read w l) lo hi);
      write l t
  | None => mret tt
  end.

(** Lines 109-113 and 188-192: the projection of every layer. *)
Definition clamp_layers (m : list layer) (wb bb : tensor * tensor) : M unit :=
  for_each m (λ module,
    clamp_attr (weight module) wb.1 wb.2;;
    clamp_attr (bias module) bb.1 bb.2).

(** Modelled from the spec: [bounded_init] is a method of the model classes
    of [src/model.py], which is not among the sources.  The specification
    says that, given (weight_min, weight_max) and (bias_min, bias_max), it
    returns a copy whose parameters are clamped into that box; it is called
    on the fresh deep copy, whose parameters it clamps in place. *)
Definition bounded_init (m : list layer) (wb bb : tensor * tensor) : M (list layer) :=
  clamp_layers m wb bb;;
  mret m.

(** ** The inner solver, the trainer and the predictor *)

Section EIModel.
Context `{Environment} (self : EIModel).

(** The adversarial objective as a function of the adversarial parameters. *)
Definition fair_objective (Z_e : list float) (X_hat_max : features)
    (θ : list layer_values) : float :=
  loss_value (proxy self Z_e (forward θ X_hat_max)).

(** The loop [for _ in range(pga_n_iters)] of lines 97-116 and 177-195.  It
    assigns [prev_loss] and the fairness value; both are returned. *)
Fixpoint pga_loop (n : nat) (model_adv : list layer) (X_hat_max : features)
    (Z_e : list float) (wb bb : tensor * tensor) (abstol : float)
    (optimizer_adv : optimizer) (prev_loss fair_loss : float)
  : M (float * float) :=
  match n with
  | O => mret (prev_loss, fair_loss)
  | S n' =>
      let prev_loss := fair_loss in
      w ← get;
      let θ := state_dict w model_adv in
      fair_loss ← lift (proxy self Z_e (forward θ X_hat_max));
      optimizer_adv ← step optimizer_adv (autograd (fair_objective Z_e X_hat_max) θ);
      let loss_diff := Float.abs (prev_loss - fair_loss)%F in
      clamp_layers model_adv wb bb;;
      if Float.ltb loss_diff abstol then mret (prev_loss, fair_loss)
      else pga_loop n' model_adv X_hat_max Z_e wb bb abstol optimizer_adv
             prev_loss fair_loss
  end.

(** [lr=1e-3, maximize=True]: the keyword arguments of the adversarial
    optimizer. *)
Definition adversarial_config : Adam_config :=
  {| lr := Fin (Q2Qc (1 # 1000)); weight_decay := zero; maximize := true |}.

(** Lines 91-116 and 172-195: the snapshot, its optimizer and the ascent. *)
Definition inner_solver (b : bounds) (X_hat_max : features) (Z_e : list float)
    (abstol : float) (pga_n_iters : nat) (prev_loss : float)
  : M (list layer * float * float) :=
  copy ← deepcopy (model self);
  wmin ← local "weight_min" (weight_min b);
  wmax ← local "weight_max" (weight_max b);
  bmin ← local "bias_min" (bias_min b);
  bmax ← local "bias_max" (bias_max b);
  model_adv ← bounded_init copy (wmin, wmax) (bmin, bmax);
  let optimizer_adv := Adam (parameters model_adv) adversarial_config in
  '(prev_loss, fair_loss) ←
    pga_loop pga_n_iters model_adv X_hat_max Z_e (wmin, wmax) (bmin, bmax)
      abstol optimizer_adv prev_loss zero;
  mret (model_adv, prev_loss, fair_loss).

(** The loss of a batch as a function of the parameters of the primary model:
    what [batch_loss.backward()] differentiates.  The adversarial parameters
    are those of a copy and do not depend on the primary model. *)
Definition batch_objective (dataset : FairnessDataset) (lamb : float)
    (X_batch : features) (Y_batch : list float)
    (adv : option (list layer_values * features * list float))
    (θ : list layer_values) : float :=
  let batch_pred_loss := BCELoss (forward θ X_batch) Y_batch in
  let batch_fair_loss :=
    match adv with
    | Some (θ_adv, X_batch_e, Z_batch_e) =>
        loss_value (proxy self Z_batch_e
                      (forward θ_adv (effort self θ dataset X_batch_e)))
    | None => zero
    end in
  ((one - lamb) * batch_pred_loss + lamb * batch_fair_loss)%F.

(** Lines 71-121: the forward pass of a batch up to the combined loss.
    Returns [batch_loss], the value of [prev_loss], and the adversarial part
    of the graph when the inner solver ran. *)
Definition batch_forward (dataset : FairnessDataset) (lamb curr_alpha abstol : float)
    (pga_n_iters : nat) (prev_loss : float) (b : batch)
  : M (float * float * option (list layer_values * features * list float)) :=
  let '(X_batch, Y_batch, Z_batch) := b in
  w ← get;
  let Y_hat := forward (state_dict w (model self)) X_batch in
  let batch_pred_loss := BCELoss Y_hat Y_batch in
  let batch_loss := ((one - lamb) * batch_pred_loss)%F in
  let below := (λ y, Float.ltb y (tau self)) <$> Y_hat in
  '(batch_fair_loss, prev_loss, adv) ←
    (if bool_decide (0 < torch.count below)%nat then
       X_batch_e ← lift (torch.index_mask X_batch below);
       Z_batch_e ← lift (torch.index_mask Z_batch below);
       let X_hat_max := effort self (state_dict w (model self)) dataset X_batch_e in
       let box := train_box w (model self) curr_alpha in
       '(model_adv, prev_loss, _) ←
         inner_solver box X_hat_max Z_batch_e abstol pga_n_iters prev_loss;
       w' ← get;
       let θ_adv := state_dict w' model_adv in
       batch_fair_loss ← lift (proxy self Z_batch_e (forward θ_adv X_hat_max));
       mret (batch_fair_loss, prev_loss, Some (θ_adv, X_batch_e, Z_batch_e))
     else mret (zero, prev_loss, None));
  mret ((batch_loss + lamb * batch_fair_loss)%F, prev_loss, adv).

(** Lines 70-129: one round of the loop over the batches. *)
Definition train_batch (dataset : FairnessDataset) (lamb curr_alpha abstol : float)
    (pga_n_iters : nat) (st : train_state) (b : batch) : M train_state :=
  '(batch_loss, prev_loss', adv) ←
    batch_forward dataset lamb curr_alpha abstol pga_n_iters (prev_loss st) b;
  if Float.isnan batch_loss then
    mret {| optimizer_ := optimizer_ st; prev_loss := prev_loss';
            batch_losses := batch_losses st |}
  else
    w ← get;
    optimizer' ←
      step (optimizer_ st)
        (autograd (batch_objective dataset lamb b.1.1 b.1.2 adv)
           (state_dict w (model self)));
    mret {| optimizer_ := optimizer'; prev_loss := prev_loss';
            batch_losses := batch_losses st ++ [batch_loss] |}.

Fixpoint train_batches (dataset : FairnessDataset) (lamb curr_alpha abstol : float)
    (pga_n_iters : nat) (st : train_state) (bs : list batch) : M train_state :=
  match bs with
  | [] => mret st
  | b :: bs' =>
      st' ← train_batch dataset lamb curr_alpha abstol pga_n_iters st b;
      train_batches dataset lamb curr_alpha abstol pga_n_iters st' bs'
  end.

(** Line 68 *)
Definition curr_alpha (alpha : float) (epoch n_epochs : nat) : float :=
  (alpha * (of_nat epoch / of_nat n_epochs))%F.

(** Lines 65-143: the loop [for epoch in range(n_epochs)], with [todo] epochs
    left, and the statements after it.  [last] is the local [batch_losses],
    unbound before the first epoch. *)
Fixpoint train_epochs (dataset : FairnessDataset) (lamb alpha : float)
    (n_epochs batch_size : nat) (abstol : float) (pga_n_iters : nat)
    (todo epoch : nat) (st : train_state) (last : option (list float)) : M unit :=
  match todo with
  | O =>
      batch_losses ← local "batch_losses" last;
      prev_loss ← lift (torch_dyn.mean (torch_dyn.PyList batch_losses));
      mret tt
  | S todo' =>
      let st0 := {| optimizer_ := optimizer_ st; prev_loss := prev_loss st;
                    batch_losses := [] |} in
      st1 ← train_batches dataset lamb (curr_alpha alpha epoch n_epochs) abstol
              pga_n_iters st0 (DataLoader dataset batch_size epoch);
      m ← lift (torch_dyn.mean (torch_dyn.PyList (batch_losses st1)));
      let loss_diff := Float.abs (m - prev_loss st1)%F in
      if Float.ltb loss_diff abstol then mret tt
      else train_epochs dataset lamb alpha n_epochs batch_size abstol pga_n_iters
             todo' (S epoch) st1 (Some (batch_losses st1))
  end.

Definition train (dataset : FairnessDataset) (lamb alpha lr : float)
    (n_epochs batch_size : nat) (abstol : float) (pga_n_iters : nat) : M unit :=
  let optimizer :=
    Adam (parameters (model self))
      {| lr := lr; weight_decay := Fin (Q2Qc (1 # 10000)); maximize := false |} in
  let st := {| optimizer_ := optimizer; prev_loss := zero; batch_losses := [] |} in
  train_epochs dataset lamb alpha n_epochs batch_size abstol pga_n_iters
    n_epochs 0 st None.

(** Lines 146-207 *)
Definition predict (dataset : FairnessDataset) (alpha abstol : float)
    (pga_n_iters : nat) : M (list float * list float * float * float) :=
  w ← get;
  let Y_hat := forward (state_dict w (model self)) (ds_X dataset) in
  let pred_loss := BCELoss Y_hat (ds_Y dataset) in
  let below := (λ y, Float.ltb y (tau self)) <$> Y_hat in
  '(fair_loss, X_hat_max) ←
    (if bool_decide (0 < torch.count below)%nat then
       X_e ← lift (torch.index_mask (ds_X dataset) below);
       Z_e ← lift (torch.index_mask (ds_Z dataset) below);
       let X_hat_max := effort self (state_dict w (model self)) dataset X_e in
       box ← lift (predict_box w (model self) alpha);
       '(model_adv, _, fair_loss) ←
         inner_solver box X_hat_max Z_e abstol pga_n_iters zero;
       modify (set_model_adv model_adv);;
       mret (fair_loss, Some X_hat_max)
     else
       copy ← deepcopy (model self);
       modify (set_model_adv copy);;
       mret (zero, None));
  w' ← get;
  model_adv ← attribute "model_adv" (model_adv w');
  X_hat_max ← local "X_hat_max" X_hat_max;
  let Y_hat_max := forward (state_dict w' model_adv) X_hat_max in
  mret (Y_hat, Y_hat_max, pred_loss, fair_loss).

End EIModel.

(** ** The proxies as functions of the rows

    Both proxies only depend on the rows [(z, y)] of their arguments; the
    definitions below say how, and are proved equal to the embedded functions
    further down. *)

Definition mse_ones (ys : list float) : float :=
  torch.mean ((λ y, square (y - one)%F) <$> ys).

Definition group_rows (z : nat) (rows : list (float * float)) : list (float * float) :=
  filter (λ r, Float.eqb r.1 (of_nat z) = true) rows.

Definition group_loss (z : nat) (rows : list (float * float)) : float :=
  if bool_decide (length (group_rows z rows) = 0%nat) then zero
  else mse_ones (group_rows z rows).*2.

Definition fair_batch_rows (rows : list (float * float)) : float :=
  (zero + Float.abs (group_loss 0 rows - mse_ones rows.*2)
        + Float.abs (group_loss 1 rows - mse_ones rows.*2))%F.

Definition covariance_rows (rows : list (float * float)) : float :=
  square (torch.mean ((λ r, (r.1 - torch.mean rows.*1) * r.2)%F <$> rows)).

(** ** Reasoning about computations over the world *)

(** [wp c Q w]: running [c] from [w] ends, with a value or an exception, in a
    world satisfying [Q]. *)
Definition wp {A} (c : M A) (Q : result A → world → Prop) (w : world) : Prop :=
  Q (c w).1 (c w).2.

(** The parameter objects a model points to. *)
Definition locs (m : list layer) : list loc :=
  m ≫= λ ly, option_list (weight ly) ++ option_list (bias ly).

(** [w'] differs from [w] at most in the data of the parameters [L]. *)
Definition only_at (L : list loc) (w w' : world) : Prop :=
  model_adv w' = model_adv w ∧ ∀ l, l ∉ L → heap w' !! l = heap w !! l.

(** Every parameter of [L] is a new object with respect to the heap [h]. *)
Definition outside (h : gmap loc tensor) (L : list loc) : Prop :=
  Forall (λ l, h !! l = None) L.

(** The memo of a running [deepcopy] with respect to the heap [h0] it started
    from: the copies are new objects, the copy of a stored parameter holds
    its data, and distinct parameters have distinct copies. *)
Definition copy_inv (h0 : gmap loc tensor) (memo : gmap loc loc) (w : world) : Prop :=
  h0 ⊆ heap w
  ∧ (∀ l l', memo !! l = Some l' →
       h0 !! l' = None ∧ is_Some (heap w !! l')
       ∧ (is_Some (h0 !! l) → heap w !! l' = h0 !! l))
  ∧ (∀ l1 l2 l', memo !! l1 = Some l' → memo !! l2 = Some l' → l1 = l2).

Definition attr_copy (memo : gmap loc loc) (a a' : option loc) : Prop :=
  option_Forall2 (λ l l', memo !! l = Some l') a a'.

Definition layer_copy (memo : gmap loc loc) (ly ly' : layer) : Prop :=
  attr_copy memo (weight ly) (weight ly') ∧ attr_copy memo (bias ly) (bias ly').

(** Every parameter of the model is stored in the heap. *)
Definition stored (h : gmap loc tensor) (m : list layer) : Prop :=
  Forall (λ l, is_Some (h !! l)) (locs m).

(** ** A concrete environment

    Used to run the definitions on concrete inputs.  The model is a chain of
    affine maps on one feature, [x ↦ w·x + b] for every layer that has both
    attributes; the binary cross-entropy, whose logarithms are not rational,
    is replaced by the mean squared error; every derivative is 1; and Adam's
    moment estimates, which need a square root, are replaced by a plain
    gradient step of size [lr] (upwards when [maximize] is set).  The data
    loader yields the whole dataset as a single batch. *)

Module Demo.

Definition first (t : tensor) : float := default zero (head (data t)).

Definition affine (θ : list layer_values) (x : float) : float :=
  foldl (λ acc lv,
    match lv with
    | (Some wt, Some bs) => (first wt * acc + first bs)%F
    | _ => acc
    end) x θ.

Definition scores (θ : list layer_values) (X : features) : list float :=
  (λ row, affine θ (default zero (head row))) <$> X.

Definition update (c : Adam_config) (t : nat) (mo : unit) (k i : nat) (x g : float)
  : float :=
  if maximize c then (x + lr c * g)%F else (x - lr c * g)%F.

Global Instance env : Environment := {|
  forward := scores;
  BCELoss := λ input target, torch.MSELoss input target;
  autograd := λ _ _ _ _, one;
  adam_moments := unit;
  adam_init := tt;
  adam_update := update;
  adam_next := λ _ _ _, tt;
  DataLoader := λ dataset _ _, [(ds_X dataset, ds_Y dataset, ds_Z dataset)]
|}.

End Demo.

(** Concrete inputs. *)
Module DemoData.

Definition q (n : Z) (d : positive) : float := Fin (Q2Qc (n # d)).

(** [LR]: a linear layer followed by an activation without parameters. *)
Definition LR : list layer :=
  [ {| weight := Some 1%positive; bias := Some 2%positive |};
    {| weight := None; bias := None |} ].

(** [NN]: two linear layers, each followed by an activation. *)
Definition NN : list layer :=
  [ {| weight := Some 1%positive; bias := Some 2%positive |};
    {| weight := None; bias := None |};
    {| weight := Some 3%positive; bias := Some 4%positive |};
    {| weight := None; bias := None |} ].

Definition mk_world (ps : list (loc * tensor)) : world :=
  {| heap := list_to_map ps; model_adv := None |}.

(** [LR] with weight 1 and bias 0. *)
Definition w_LR : world :=
  mk_world [ (1%positive, {| shape := [1; 1]%nat; data := [q 1 1] |});
             (2%positive, {| shape := [1%nat]; data := [q 0 1] |}) ].

(** A linear layer whose bias has two elements. *)
Definition w_wide : world :=
  mk_world [ (1%positive, {| shape := [2; 1]%nat; data := [q 1 1; q 1 1] |});
             (2%positive, {| shape := [2%nat]; data := [q 0 1; q 0 1] |}) ].

(** [NN] with weights 1 and 1/2 and biases 0. *)
Definition w_NN : world :=
  mk_world [ (1%positive, {| shape := [1; 1]%nat; data := [q 1 1] |});
             (2%positive, {| shape := [1%nat]; data := [q 0 1] |});
             (3%positive, {| shape := [1; 1]%nat; data := [q 1 2] |});
             (4%positive, {| shape := [1%nat]; data := [q 0 1] |}) ].

(** Effort moves the feature up by 1/10. *)
Definition add_effort (θ : list layer_values) (dataset : FairnessDataset)
    (X : features) : features :=
  (λ row : list float, (λ x, (x + q 1 10)%F) <$> row) <$> (X : list (list float)).

Definition ei (m : list layer) : EIModel :=
  {| model := m; proxy := fair_batch_proxy; effort := add_effort; tau := q 1 2 |}.

(** Four rows, two per group; the first and the third are scored below 1/2. *)
Definition ds : FairnessDataset :=
  {| ds_X := [[q 1 4]; [q 3 4]; [q 1 8]; [q 1 1]];
     ds_Y := [q 0 1; q 1 1; q 0 1; q 1 1];
     ds_Z := [q 0 1; q 0 1; q 1 1; q 1 1] |}.

(** Two rows, both scored above 1/2. *)
Definition ds_high : FairnessDataset :=
  {| ds_X := [[q 3 4]; [q 1 1]];
     ds_Y := [q 1 1; q 1 1];
     ds_Z := [q 0 1; q 1 1] |}.

(** One row with a label that is not a number. *)
Definition ds_nan : FairnessDataset :=
  {| ds_X := [[q 3 4]]; ds_Y := [NaN]; ds_Z := [q 0 1] |}.

Definition abstol : float := q 1 10000000.

End DemoData.

(** The value of a computation that is known to have succeeded. *)
Definition value {A} (d : A) (r : result A) : A :=
  match r with
  | Ok a => a
  | Raise _ => d
  end.

(** A layer without parameters, such as an activation. *)
Definition paramless (ly : layer) : Prop := weight ly = None ∧ bias ly = None.

(** [t] has the shape and size of [p], and each of its elements is a number or
    the element of [p] at its place. *)
Definition compatible (t p : tensor) : Prop :=
  shape t = shape p
  ∧ Forall2 (λ x c, isnan x = false ∨ x = c) (data t) (data p).

(** ** The box invariant, as a test *)

(** Every element of [t] lies within [radius] of the element of [p] at its
    place. *)
Definition tensor_in_box (t p : tensor) (radius : float) : bool :=
  bool_decide (shape t = shape p)
  && bool_decide (length (data t) = length (data p))
  && forallb (λ xc, Float.leb (xc.2 - radius)%F xc.1 && Float.leb xc.1 (xc.2 + radius)%F)
       (zip (data t) (data p)).

Definition attr_in_box (a p : option tensor) (radius : float) : bool :=
  match a, p with
  | Some t, Some c => tensor_in_box t c radius
  | None, None => true
  | _, _ => false
  end.

(** Every weight and bias of the adversarial model lies in the box around
    the parameter of the primary model it was copied from. *)
Definition in_box (θ_adv θ : list layer_values) (radius : float) : bool :=
  bool_decide (length θ_adv = length θ)
  && forallb (λ lv, attr_in_box lv.1.1 lv.2.1 radius && attr_in_box lv.1.2 lv.2.2 radius)
       (zip θ_adv θ).

(** The adversarial parameters at the end of the forward pass of a batch. *)
Definition adversarial_values
    (r : result (float * float * option (list layer_values * features * list float)))
  : option (list layer_values) :=
  match r with
  | Ok (_, _, Some (θ_adv, _, _)) => Some θ_adv
  | _ => None
  end.

(** ** The exceptions of the two failing calls *)

(** What [Tensor.item] raises on a tensor with more than one element. *)
Definition item_error : exn :=
  RuntimeError "a Tensor with several elements cannot be converted to Scalar".

(** What [torch.mean] raises on a Python list. *)
Definition mean_type_error : exn :=
  TypeError "mean(): argument 'input' (position 1) must be Tensor, not list".


(** ** Further notions used to state properties *)

(** [loss_fn(Y_hat_max[Z == z], torch.ones((Z == z).sum()))]: the loss of the
    subgroup [z], as line 28 of [fair_batch_proxy] computes it. *)
Definition subgroup_loss (Z Y_hat_max : list float) (z : nat) : float :=
  let group_idx := (λ v, Float.eqb v (of_nat z)) <$> Z in
  torch.MSELoss (torch.select Y_hat_max group_idx) (torch.ones (torch.count group_idx)).

(** [w'] holds every tensor of [w] that is not a parameter of [L], and the
    attribute [model_adv] is as in [w]. *)
Definition untouched (L : list loc) (w w' : world) : Prop :=
  model_adv w' = model_adv w
  ∧ ∀ l, l ∉ L → is_Some (heap w !! l) → heap w' !! l = heap w !! l.

(** [t] has the shape and the size of [p], and none of its elements is
    NaN. *)
Definition comparable (t p : tensor) : Prop :=
  shape t = shape p
  ∧ length (data t) = length (data p)
  ∧ Forall (λ x, isnan x = false) (data t).

(** A batch on which [LR] with weight 1 and bias 0 predicts the labels
    exactly, 0 and 1: there the binary cross-entropy is 0, and so is the loss
    of the concrete environment. *)
Definition ds_exact : FairnessDataset :=
  {| ds_X := [[DemoData.q 0 1]; [DemoData.q 1 1]];
     ds_Y := [DemoData.q 0 1; DemoData.q 1 1];
     ds_Z := [DemoData.q 0 1; DemoData.q 1 1] |}.

(** A proxy, as a caller may pass one to [EIModel], whose value is +inf. *)
Definition infinite_proxy (Z Y_hat_max : list float) : result float := Ok PInf.

Definition ei_infinite : EIModel :=
  {| model := DemoData.LR; proxy := infinite_proxy;
     effort := DemoData.add_effort; tau := DemoData.q 1 2 |}.

Section Trace.
Context `{Environment} (self : EIModel).

(** The combined losses that the forward passes of the batches [bs] compute,
    one after the other, each in the state the loop has reached; the list
    ends where the loop raises. *)
Fixpoint forward_losses (dataset : FairnessDataset) (lamb curr_alpha abstol : float)
    (pga_n_iters : nat) (st : train_state) (bs : list batch) (w : world) : list float :=
  match bs with
  | [] => []
  | b :: bs' =>
      match batch_forward self dataset lamb curr_alpha abstol pga_n_iters (prev_loss st) b w with
      | (Ok (batch_loss, _, _), _) =>
          batch_loss ::
          match train_batch self dataset lamb curr_alpha abstol pga_n_iters st b w with
          | (Ok st', w') =>
              forward_losses dataset lamb curr_alpha abstol pga_n_iters st' bs' w'
          | (Raise _, _) => []
          end
      | (Raise _, _) => []
      end
  end.

End Trace.


(** * Properties *)

(** Closed computations: evaluate, then compare the rationals that remain by
    their canonical fractions. *)
Ltac float_compute :=
  vm_compute;
  repeat match goal with
         | |- _ => reflexivity
         | |- @eq Qc _ _ => apply Qc_is_canon; reflexivity
         | |- Ok _ = Ok _ => apply (f_equal Ok)
         | |- Fin _ = Fin _ => apply (f_equal Fin)
         | |- Some _ = Some _ => apply (f_equal Some)
         | |- (_, _) = (_, _) => apply (f_equal2 pair)
         | |- _ :: _ = _ :: _ => apply (f_equal2 cons)
         end.

(** ** Arithmetic of [float] *)

Section FloatFacts.

Global Instance float_add_comm : Comm (=) Float.add.
Proof. intros [a| | |] [b| | |]; simpl; try done. f_equal; ring. Qed.

Global Instance float_add_assoc : Assoc (=) Float.add.
Proof.
  intros [a| | |] [b| | |] [c| | |]; simpl; try done. f_equal; ring.
Qed.

Lemma float_add_zero_l x : (zero + x)%F = x.
Proof. destruct x; simpl; try done. f_equal; ring. Qed.

Lemma float_sub_diag q : (Fin q - Fin q)%F = zero.
Proof. unfold Float.sub; simpl. unfold zero. f_equal; ring. Qed.

Lemma float_abs_nonneg q : 0 ≤ q → Float.abs (Fin q) = Fin q.
Proof.
  intros Hq. simpl. rewrite bool_decide_eq_false_2; [done|].
  by apply Qcle_not_lt.
Qed.

Lemma float_abs_zero_sub q : 0 ≤ q → Float.abs (zero - Fin q)%F = Fin q.
Proof.
  intros Hq. unfold Float.sub, zero; simpl.
  destruct (decide (q = 0)) as [->|Hne].
  - rewrite bool_decide_eq_false_2; [f_equal; ring|]. by compute.
  - rewrite bool_decide_eq_true_2; [f_equal; ring|].
    apply Qclt_minus_iff. replace (0 + - (0 + - q)) with q by ring.
    by apply Qcle_lt_or_eq in Hq as [?|?].
Qed.

Lemma square_fin q : square (Fin q) = Fin (q * q).
Proof. done. Qed.

Lemma square_nonneg (q : Qc) : 0 ≤ q * q.
Proof.
  destruct (Qclt_le_dec q 0) as [Hq|Hq].
  - replace (q * q) with ((- q) * (- q)) by ring.
    assert (0 ≤ - q) as Hn.
    { apply Qclt_le_weak, Qcopp_le_compat in Hq. by replace (- 0) with 0 in Hq by ring. }
    by apply Qcmult_nonneg_nonneg.
  - by apply Qcmult_nonneg_nonneg.
Qed.

End FloatFacts.

(** ** One-dimensional tensors *)

Section TorchFacts.

Global Instance sum_Permutation : Proper ((≡ₚ) ==> (=)) torch.sum.
Proof.
  apply (foldr_permutation_proper (=)); [apply _|].
  intros a1 a2 b. by rewrite !(assoc_L Float.add), (comm_L Float.add a1).
Qed.

Global Instance mean_Permutation : Proper ((≡ₚ) ==> (=)) torch.mean.
Proof. intros l1 l2 Hl. unfold torch.mean. by rewrite Hl. Qed.

Lemma sum_fin (qs : list Qc) : torch.sum (Fin <$> qs) = Fin (foldr Qcplus 0 qs).
Proof.
  induction qs as [|q qs IH]; [done|].
  change (Fin q + torch.sum (Fin <$> qs) = Fin (q + foldr Qcplus 0 qs))%F.
  by rewrite IH.
Qed.

Lemma finite_list (l : list float) :
  Forall (λ x, isfinite x = true) l → ∃ qs, l = Fin <$> qs.
Proof.
  induction 1 as [|x l Hx _ [qs ->]]; [by exists []|].
  destruct x as [q| | |]; try done. by exists (q :: qs).
Qed.

Lemma of_nat_ne_0 n : n ≠ 0%nat → Qc_of_Z (Z.of_nat n) ≠ 0.
Proof. intros Hn Heq. rewrite <-Z2Qc_inj_0 in Heq. apply Z2Qc_inj in Heq. lia. Qed.

Lemma of_nat_pos n : n ≠ 0%nat → 0 < Qc_of_Z (Z.of_nat n).
Proof.
  intros Hn. rewrite <-Z2Qc_inj_0.
  apply (proj1 (Z2Qc_inj_lt 0 (Z.of_nat n))). lia.
Qed.

Lemma mean_fin (qs : list Qc) :
  qs ≠ [] →
  torch.mean (Fin <$> qs) = Fin (foldr Qcplus 0 qs / Qc_of_Z (Z.of_nat (length qs))).
Proof.
  intros Hqs. unfold torch.mean. rewrite sum_fin, length_fmap. simpl.
  rewrite bool_decide_eq_false_2; [done|].
  apply of_nat_ne_0. by destruct qs.
Qed.

Lemma sum_nonneg (qs : list Qc) : Forall (λ q, 0 ≤ q) qs → 0 ≤ foldr Qcplus 0 qs.
Proof.
  induction 1 as [|q qs Hq _ IH]; [done|]. simpl. by apply Qcplus_nonneg_nonneg.
Qed.

Lemma mse_ones_fin (qs : list Qc) :
  qs ≠ [] → ∃ m, 0 ≤ m ∧ mse_ones (Fin <$> qs) = Fin m.
Proof.
  intros Hqs. unfold mse_ones.
  assert ((λ y, square (y - one)%F) <$> (Fin <$> qs)
          = Fin <$> ((λ q, (q + - 1) * (q + - 1)) <$> qs)) as ->.
  { by rewrite <-!list_fmap_compose. }
  rewrite mean_fin by (by destruct qs).
  eexists; split; [|done].
  rewrite length_fmap. unfold Qcdiv.
  apply Qcmult_nonneg_nonneg.
  - apply sum_nonneg, Forall_fmap, Forall_forall. intros q _. apply square_nonneg.
  - apply Qclt_le_weak, Qcinv_pos, of_nat_pos. by destruct qs.
Qed.

Lemma MSELoss_ones (ys : list float) :
  torch.MSELoss ys (torch.ones (length ys)) = mse_ones ys.
Proof.
  unfold torch.MSELoss, torch.ones, mse_ones.
  by rewrite zip_with_replicate_r_eq.
Qed.

Lemma count_zip (c : float) (Z Y : list float) :
  length Z = length Y →
  torch.count ((λ v, Float.eqb v c) <$> Z)
  = length (filter (λ r : float * float, Float.eqb r.1 c = true) (zip Z Y)).
Proof.
  unfold torch.count. revert Y.
  induction Z as [|z Z IH]; intros [|y Y] Hlen; simplify_eq/=; [done|].
  rewrite !filter_cons. simpl. specialize (IH Y ltac:(done)).
  repeat case_decide; simpl; try done; by rewrite IH.
Qed.

Lemma select_zip (c : float) (Z Y : list float) :
  length Z = length Y →
  torch.select Y ((λ v, Float.eqb v c) <$> Z)
  = (filter (λ r : float * float, Float.eqb r.1 c = true) (zip Z Y)).*2.
Proof.
  revert Y.
  induction Z as [|z Z IH]; intros [|y Y] Hlen; simplify_eq/=; [done|].
  rewrite filter_cons. simpl. specialize (IH Y ltac:(done)).
  destruct (Float.eqb z c) eqn:Hz; case_decide; try done; simpl; by rewrite IH.
Qed.

End TorchFacts.

(** ** The proxies *)

Section ProxyFacts.

Lemma fair_batch_group_rows (Z Y : list float) (lm pv : float) (z : nat) :
  length Z = length Y →
  fair_batch_group Z Y lm pv z
  = Ok (pv + Float.abs (group_loss z (zip Z Y) - lm))%F.
Proof.
  intros Hlen. unfold fair_batch_group, group_loss, group_rows.
  rewrite (count_zip _ Z Y Hlen).
  case_bool_decide as Hc; [done|].
  unfold torch.index_mask.
  rewrite bool_decide_eq_true_2 by (by rewrite length_fmap).
  simpl. rewrite (select_zip _ Z Y Hlen).
  rewrite <-(length_fmap snd), MSELoss_ones. done.
Qed.

Lemma fair_batch_proxy_rows (Z Y : list float) :
  length Z = length Y →
  fair_batch_proxy Z Y = Ok (fair_batch_rows (zip Z Y)).
Proof.
  intros Hlen. unfold fair_batch_proxy. simpl.
  rewrite !fair_batch_group_rows by done. simpl.
  rewrite fair_batch_group_rows by done.
  unfold fair_batch_rows. by rewrite MSELoss_ones, snd_zip by lia.
Qed.

Lemma covariance_proxy_rows (Z Y : list float) :
  length Z = length Y →
  covariance_proxy Z Y = Ok (covariance_rows (zip Z Y)).
Proof.
  intros Hlen. unfold covariance_proxy, torch.broadcast, covariance_rows.
  rewrite bool_decide_eq_true_2 by (by rewrite length_fmap).
  simpl. rewrite fst_zip by lia. do 2 f_equal.
  rewrite zip_with_fmap_l, zip_with_zip.
  f_equal. apply list_fmap_ext. by intros i [a b] _.
Qed.

Global Instance group_rows_Permutation z : Proper ((≡ₚ) ==> (≡ₚ)) (group_rows z).
Proof. intros r1 r2 Hr. unfold group_rows. by rewrite Hr. Qed.

Global Instance mse_ones_Permutation : Proper ((≡ₚ) ==> (=)) mse_ones.
Proof. intros l1 l2 Hl. unfold mse_ones. by rewrite Hl. Qed.

Global Instance group_loss_Permutation z : Proper ((≡ₚ) ==> (=)) (group_loss z).
Proof.
  intros r1 r2 Hr. unfold group_loss.
  pose proof (group_rows_Permutation z _ _ Hr) as Hg.
  rewrite (Permutation_length Hg). case_bool_decide; [done|]. by rewrite Hg.
Qed.

Global Instance fair_batch_rows_Permutation : Proper ((≡ₚ) ==> (=)) fair_batch_rows.
Proof.
  intros r1 r2 Hr. unfold fair_batch_rows.
  rewrite (group_loss_Permutation 0 _ _ Hr), (group_loss_Permutation 1 _ _ Hr).
  by rewrite (mse_ones_Permutation r1.*2 r2.*2) by (by rewrite Hr).
Qed.

Global Instance covariance_rows_Permutation : Proper ((≡ₚ) ==> (=)) covariance_rows.
Proof.
  intros r1 r2 Hr. unfold covariance_rows. f_equal.
  rewrite (mean_Permutation r1.*1 r2.*1) by (by rewrite Hr).
  apply mean_Permutation. by rewrite Hr.
Qed.

End ProxyFacts.

Section ProxyValues.

Lemma mean_finite (l : list float) :
  l ≠ [] → Forall (λ x, isfinite x = true) l → ∃ m, torch.mean l = Fin m.
Proof.
  intros Hl [qs ->]%finite_list. rewrite mean_fin; [by eexists|].
  by destruct qs.
Qed.

Lemma mse_ones_finite (l : list float) :
  l ≠ [] → Forall (λ x, isfinite x = true) l → ∃ m, 0 ≤ m ∧ mse_ones l = Fin m.
Proof. intros Hl [qs ->]%finite_list. apply mse_ones_fin. by destruct qs. Qed.

Lemma group_loss_finite (z : nat) (rows : list (float * float)) :
  Forall (λ x, isfinite x = true) rows.*2 → ∃ g, group_loss z rows = Fin g.
Proof.
  intros Hfin. unfold group_loss. case_bool_decide as Hg; [by eexists|].
  destruct (mse_ones_finite (group_rows z rows).*2) as (m & _ & ->); [| |by eexists].
  - intros Hnil. apply Hg. by rewrite <-(length_fmap snd), Hnil.
  - apply Forall_fmap. apply Forall_fmap in Hfin.
    rewrite Forall_forall in Hfin. apply Forall_forall.
    intros r [_ Hr]%list_elem_of_filter. by apply Hfin.
Qed.

Lemma fair_batch_rows_finite (rows : list (float * float)) :
  rows ≠ [] → Forall (λ x, isfinite x = true) rows.*2 →
  ∃ a, fair_batch_rows rows = Fin a.
Proof.
  intros Hne Hfin. unfold fair_batch_rows.
  destruct (mse_ones_finite rows.*2) as (m & _ & ->); [by destruct rows|done|].
  destruct (group_loss_finite 0 rows Hfin) as [g0 ->].
  destruct (group_loss_finite 1 rows Hfin) as [g1 ->].
  simpl. repeat case_bool_decide; by eexists.
Qed.

Lemma covariance_rows_finite (rows : list (float * float)) :
  rows ≠ [] →
  Forall (λ x, isfinite x = true) rows.*1 →
  Forall (λ x, isfinite x = true) rows.*2 →
  ∃ b, covariance_rows rows = Fin b.
Proof.
  intros Hne Hz Hy. unfold covariance_rows.
  destruct (mean_finite rows.*1) as [μ ->]; [by destruct rows|done|].
  destruct (mean_finite ((λ r, (r.1 - Fin μ) * r.2)%F <$> rows)) as [c ->].
  - by destruct rows.
  - apply Forall_fmap. apply Forall_fmap in Hz, Hy.
    eapply Forall_impl; [apply Forall_and; split; [apply Hz|apply Hy]|].
    intros [[a| | |] [b| | |]] [? ?]; done.
  - by eexists.
Qed.

Lemma group_rows_all (z : nat) (rows : list (float * float)) :
  Forall (λ r, Float.eqb r.1 (of_nat z) = true) rows → group_rows z rows = rows.
Proof.
  unfold group_rows. induction 1 as [|r rows Hr _ IH]; [done|].
  by rewrite filter_cons_True, IH.
Qed.

Lemma group_rows_none (z : nat) (rows : list (float * float)) :
  Forall (λ r, Float.eqb r.1 (of_nat z) = false) rows → group_rows z rows = [].
Proof.
  unfold group_rows. induction 1 as [|r rows Hr _ IH]; [done|].
  rewrite filter_cons_False, IH; [done|]. by rewrite Hr.
Qed.

Lemma eqb_of_nat (a b : nat) : Float.eqb (of_nat a) (of_nat b) = bool_decide (a = b).
Proof.
  unfold of_nat. simpl. apply bool_decide_ext.
  rewrite Z2Qc_inj_iff. lia.
Qed.

End ProxyValues.

(** ** The claims about the proxies *)

(** C2 (as the specification states it, refuted): on the one-row batch
    [Z = [0]], [Y_hat = [1/2]] only the subgroup 0 is present, and
    [fair_batch_proxy] returns 1/4, not 0. *)
Lemma fair_batch_proxy_single_group_nonzero :
  fair_batch_proxy [of_nat 0] [Fin (Q2Qc (1 # 2))] = Ok (Fin (Q2Qc (1 # 4)))
  ∧ fair_batch_proxy [of_nat 0] [Fin (Q2Qc (1 # 2))] ≠ Ok zero.
Proof.
  assert (fair_batch_proxy [of_nat 0] [Fin (Q2Qc (1 # 2))] = Ok (Fin (Q2Qc (1 # 4)))) as Heq.
  { float_compute. }
  split; [done|]. rewrite Heq. intros [=].
Qed.

(** C2 (amended): on a non-empty batch of finite predictions in which every
    row belongs to the same subgroup [z] (0 or 1), the subgroup that is
    present contributes 0, the subgroup without members contributes
    [|0 - loss_mean| = loss_mean], and [fair_batch_proxy] returns [loss_mean],
    the mean squared error of all the predictions against 1. *)
Theorem fair_batch_proxy_single_group (Z Y_hat : list float) (z : nat) :
  (z = 0 ∨ z = 1)%nat →
  Y_hat ≠ [] →
  length Z = length Y_hat →
  Forall (λ v, v = of_nat z) Z →
  Forall (λ y, isfinite y = true) Y_hat →
  let loss_mean := torch.MSELoss Y_hat (torch.ones (length Y_hat)) in
  fair_batch_group Z Y_hat loss_mean zero z = Ok zero
  ∧ fair_batch_group Z Y_hat loss_mean zero (1 - z) = Ok loss_mean
  ∧ fair_batch_proxy Z Y_hat = Ok loss_mean.
Proof.
  intros Hz Hne Hlen HZ Hfin loss_mean.
  assert (∀ z', Forall (λ r : float * float, Float.eqb r.1 (of_nat z') = bool_decide (z = z'))
                  (zip Z Y_hat)) as Hrows.
  { intros z'. apply Forall_forall. intros [a b] Hin.
    apply elem_of_zip_l in Hin. rewrite Forall_forall in HZ.
    simpl. rewrite (HZ a Hin). apply eqb_of_nat. }
  assert (zip Z Y_hat ≠ []) as Hzip.
  { destruct Z, Y_hat; simplify_eq/=; done. }
  assert (group_loss z (zip Z Y_hat) = loss_mean) as Hpresent.
  { unfold group_loss. rewrite group_rows_all.
    - rewrite bool_decide_eq_false_2 by (by destruct (zip Z Y_hat)).
      unfold loss_mean. by rewrite MSELoss_ones, snd_zip by lia.
    - eapply Forall_impl; [apply (Hrows z)|]. intros r ->. by apply bool_decide_eq_true_2. }
  assert (group_loss (1 - z) (zip Z Y_hat) = zero) as Habsent.
  { unfold group_loss. rewrite group_rows_none; [done|].
    eapply Forall_impl; [apply (Hrows (1 - z)%nat)|]. intros r ->.
    apply bool_decide_eq_false_2. lia. }
  destruct (mse_ones_finite Y_hat Hne Hfin) as (m & Hm & Hmse).
  assert (loss_mean = Fin m) as Hlm.
  { unfold loss_mean. by rewrite MSELoss_ones. }
  assert (Float.abs (loss_mean - loss_mean)%F = zero) as Hdiag.
  { rewrite Hlm, float_sub_diag. done. }
  assert (Float.abs (zero - loss_mean)%F = loss_mean) as Hgap.
  { rewrite Hlm. by apply float_abs_zero_sub. }
  split_and!.
  - by rewrite fair_batch_group_rows, Hpresent, Hdiag.
  - by rewrite fair_batch_group_rows, Habsent, Hgap, float_add_zero_l.
  - rewrite fair_batch_proxy_rows by done. f_equal. unfold fair_batch_rows.
    rewrite snd_zip, <-MSELoss_ones by lia. fold loss_mean.
    destruct Hz as [-> | ->]; simpl in Hpresent, Habsent.
    + rewrite Hpresent, Habsent, Hdiag, Hgap, Hlm. simpl. f_equal. ring.
    + rewrite Hpresent, Habsent, Hdiag, Hgap, Hlm. simpl. f_equal. ring.
Qed.

(** Witness of [fair_batch_proxy_single_group]: three rows of the subgroup 1. *)
Lemma fair_batch_proxy_single_group_witness :
  let Z := [of_nat 1; of_nat 1; of_nat 1] in
  let Y_hat := [Fin (Q2Qc (1 # 2)); Fin (Q2Qc (3 # 4)); Fin 1] in
  let loss_mean := torch.MSELoss Y_hat (torch.ones (length Y_hat)) in
  fair_batch_group Z Y_hat loss_mean zero 1 = Ok zero
  ∧ fair_batch_group Z Y_hat loss_mean zero (1 - 1) = Ok loss_mean
  ∧ fair_batch_proxy Z Y_hat = Ok loss_mean.
Proof.
  apply (fair_batch_proxy_single_group
           [of_nat 1; of_nat 1; of_nat 1]
           [Fin (Q2Qc (1 # 2)); Fin (Q2Qc (3 # 4)); Fin 1] 1).
  - by right.
  - done.
  - reflexivity.
  - repeat constructor.
  - repeat constructor.
Defined.

(** Row permutations never change the value of either proxy, whatever the
    entries are. *)
Lemma proxies_permutation (Z Y_hat Z' Y_hat' : list float) :
  length Z = length Y_hat →
  length Z' = length Y_hat' →
  zip Z' Y_hat' ≡ₚ zip Z Y_hat →
  fair_batch_proxy Z' Y_hat' = fair_batch_proxy Z Y_hat
  ∧ covariance_proxy Z' Y_hat' = covariance_proxy Z Y_hat.
Proof.
  intros Hlen Hlen' Hperm.
  rewrite !fair_batch_proxy_rows, !covariance_proxy_rows by done.
  by rewrite Hperm.
Qed.

(** C8 (as the specification states it, refuted): on the empty batch, whose
    only row permutation is the identity, both proxies return [NaN], which is
    not a finite scalar; so do they on [Z = [0]], [Y_hat = [+inf]]. *)
Lemma proxies_not_finite :
  length ([] : list float) = length ([] : list float)
  ∧ fair_batch_proxy [] [] = Ok NaN
  ∧ covariance_proxy [] [] = Ok NaN
  ∧ fair_batch_proxy [of_nat 0] [PInf] = Ok NaN
  ∧ covariance_proxy [of_nat 0] [PInf] = Ok NaN.
Proof. split_and!; float_compute. Qed.

(** C8 (amended): for [Z] and [Y_hat] of equal length and any permutation
    applied to the rows of both, each of [fair_batch_proxy] and
    [covariance_proxy] returns on the permuted inputs what it returns on the
    original ones (arithmetic on finite values being exact).  That value is
    a finite scalar when the batch is not empty and the entries of [Z] and
    [Y_hat] are finite; on the empty batch both proxies return NaN. *)
Theorem proxies_row_permutation (Z Y_hat Z' Y_hat' : list float) :
  length Z = length Y_hat →
  length Z' = length Y_hat' →
  zip Z' Y_hat' ≡ₚ zip Z Y_hat →
  fair_batch_proxy Z' Y_hat' = fair_batch_proxy Z Y_hat
  ∧ covariance_proxy Z' Y_hat' = covariance_proxy Z Y_hat
  ∧ (Y_hat ≠ [] →
     Forall (λ z, isfinite z = true) Z →
     Forall (λ y, isfinite y = true) Y_hat →
     ∃ a b : Qc,
       fair_batch_proxy Z Y_hat = Ok (Fin a)
       ∧ fair_batch_proxy Z' Y_hat' = Ok (Fin a)
       ∧ covariance_proxy Z Y_hat = Ok (Fin b)
       ∧ covariance_proxy Z' Y_hat' = Ok (Fin b))
  ∧ (Y_hat = [] →
     fair_batch_proxy Z Y_hat = Ok NaN ∧ covariance_proxy Z Y_hat = Ok NaN
     ∧ fair_batch_proxy Z' Y_hat' = Ok NaN ∧ covariance_proxy Z' Y_hat' = Ok NaN).
Proof.
  intros Hlen Hlen' Hperm.
  destruct (proxies_permutation Z Y_hat Z' Y_hat' Hlen Hlen' Hperm) as [Hf Hc].
  split_and!; [done|done| |].
  - intros Hne HZ HY. rewrite Hf, Hc.
    rewrite fair_batch_proxy_rows, covariance_proxy_rows by done.
    assert (zip Z Y_hat ≠ []) as Hzip by (destruct Z, Y_hat; simplify_eq/=; done).
    destruct (fair_batch_rows_finite (zip Z Y_hat)) as [a ->];
      [done|by rewrite snd_zip by lia|].
    destruct (covariance_rows_finite (zip Z Y_hat)) as [b ->];
      [done|by rewrite fst_zip by lia|by rewrite snd_zip by lia|].
    by exists a, b.
  - intros ->. rewrite Hf, Hc. destruct Z; [|done].
    split_and!; float_compute.
Qed.

(** Witness of [proxies_row_permutation]: two rows, swapped. *)
Lemma proxies_row_permutation_witness :
  let Z := [of_nat 0; of_nat 1] in
  let Y_hat := [Fin (Q2Qc (1 # 2)); Fin (Q2Qc (1 # 4))] in
  let Z' := [of_nat 1; of_nat 0] in
  let Y_hat' := [Fin (Q2Qc (1 # 4)); Fin (Q2Qc (1 # 2))] in
  fair_batch_proxy Z' Y_hat' = fair_batch_proxy Z Y_hat
  ∧ covariance_proxy Z' Y_hat' = covariance_proxy Z Y_hat
  ∧ (Y_hat ≠ [] →
     Forall (λ z, isfinite z = true) Z →
     Forall (λ y, isfinite y = true) Y_hat →
     ∃ a b : Qc,
       fair_batch_proxy Z Y_hat = Ok (Fin a)
       ∧ fair_batch_proxy Z' Y_hat' = Ok (Fin a)
       ∧ covariance_proxy Z Y_hat = Ok (Fin b)
       ∧ covariance_proxy Z' Y_hat' = Ok (Fin b))
  ∧ (Y_hat = [] →
     fair_batch_proxy Z Y_hat = Ok NaN ∧ covariance_proxy Z Y_hat = Ok NaN
     ∧ fair_batch_proxy Z' Y_hat' = Ok NaN ∧ covariance_proxy Z' Y_hat' = Ok NaN).
Proof.
  apply (proxies_row_permutation
           [of_nat 0; of_nat 1] [Fin (Q2Qc (1 # 2)); Fin (Q2Qc (1 # 4))]
           [of_nat 1; of_nat 0] [Fin (Q2Qc (1 # 4)); Fin (Q2Qc (1 # 2))]).
  - reflexivity.
  - reflexivity.
  - simpl. apply perm_swap.
Defined.

(** ** The logic of [M] *)

Section Logic.
Context {A B : Type}.

Lemma wp_bind (c : M A) (f : A → M B) (Q : result B → world → Prop) w :
  wp c (λ r w', match r with
                | Ok a => wp (f a) Q w'
                | Raise e => Q (Raise e) w'
                end) w →
  wp (c ≫= f) Q w.
Proof. unfold wp, mbind, M_bind. by destruct (c w) as [[a|e] w']. Qed.

Lemma wp_mono (c : M A) (Q Q' : result A → world → Prop) w :
  wp c Q w → (∀ r w', Q r w' → Q' r w') → wp c Q' w.
Proof. unfold wp. auto. Qed.

Lemma wp_ret (a : A) (Q : result A → world → Prop) w : Q (Ok a) w → wp (mret a) Q w.
Proof. done. Qed.

Lemma wp_lift (r : result A) (Q : result A → world → Prop) w : Q r w → wp (lift r) Q w.
Proof. done. Qed.

Lemma wp_raise (e : exn) (Q : result A → world → Prop) w :
  Q (Raise e) w → wp (raise e) Q w.
Proof. done. Qed.

Lemma wp_local name (v : option A) (Q : result A → world → Prop) w :
  match v with Some a => Q (Ok a) w | None => Q (Raise (UnboundLocalError name)) w end →
  wp (local name v) Q w.
Proof. by destruct v. Qed.

Lemma wp_attribute name (v : option A) (Q : result A → world → Prop) w :
  match v with Some a => Q (Ok a) w | None => Q (Raise (AttributeError name)) w end →
  wp (attribute name v) Q w.
Proof. by destruct v. Qed.

End Logic.

Lemma wp_get (Q : result world → world → Prop) w : Q (Ok w) w → wp get Q w.
Proof. done. Qed.

Lemma wp_modify f (Q : result unit → world → Prop) w : Q (Ok tt) (f w) → wp (modify f) Q w.
Proof. done. Qed.

(** Peel the binds of the computation in the goal. *)
Ltac wp_step :=
  lazymatch goal with
  | |- wp (_ ≫= _) _ _ => apply wp_bind
  | |- wp (mret _) _ _ => apply wp_ret
  | |- wp (lift _) _ _ => apply wp_lift
  | |- wp (raise _) _ _ => apply wp_raise
  | |- wp (local _ _) _ _ => apply wp_local
  | |- wp (attribute _ _) _ _ => apply wp_attribute
  | |- wp get _ _ => apply wp_get
  | |- wp (modify _) _ _ => apply wp_modify
  | |- match ?r with Ok _ => _ | Raise _ => _ end => progress (cbn beta iota); wp_step
  end.

(** Run the straight-line part of the computation in the goal. *)
Ltac wp_run := repeat (wp_step; cbn beta iota).

(** ** Frames *)

Section Frames.

Lemma only_at_refl L w : only_at L w w.
Proof. done. Qed.

Lemma only_at_trans L w1 w2 w3 : only_at L w1 w2 → only_at L w2 w3 → only_at L w1 w3.
Proof.
  intros [Ha1 Hh1] [Ha2 Hh2]. split; [congruence|].
  intros l Hl. by rewrite Hh2, Hh1.
Qed.

Lemma only_at_mono L L' w w' : L ⊆ L' → only_at L w w' → only_at L' w w'.
Proof. intros HL [Ha Hh]. split; [done|]. intros l Hl. apply Hh. set_solver. Qed.

Lemma only_at_outside h L w w' :
  outside h L → h ⊆ heap w → only_at L w w' → h ⊆ heap w'.
Proof.
  intros Hout Hsub [_ Hh]. apply map_subseteq_spec. intros l t Hl.
  rewrite Hh; [by eapply lookup_weaken|].
  intros Hin. unfold outside in Hout. rewrite Forall_forall in Hout.
  specialize (Hout l Hin). congruence.
Qed.

Lemma wp_write l t L w :
  l ∈ L → wp (write l t) (λ r w', r = Ok tt ∧ only_at L w w') w.
Proof.
  intros Hl. unfold wp, write, modify, only_at. simpl. split_and!; [done..|].
  intros l' Hl'. apply lookup_insert_ne. set_solver.
Qed.

Lemma wp_clamp_attr a lo hi L w :
  option_list a ⊆ L → wp (clamp_attr a lo hi) (λ _ w', only_at L w w') w.
Proof.
  intros Ha. destruct a as [l|]; [|by apply wp_ret]. simpl.
  do 2 wp_step. wp_step. wp_step.
  destruct (Tensor.clamp _ _ _) as [t|e]; [|done].
  eapply wp_mono; [apply (wp_write _ _ L); set_solver|]. by intros r w' [_ ?].
Qed.

Lemma locs_cons ly m : locs (ly :: m) = option_list (weight ly) ++ option_list (bias ly) ++ locs m.
Proof. unfold locs. simpl. by rewrite <-(assoc_L (++)). Qed.

Lemma wp_clamp_layers m wb bb L w :
  locs m ⊆ L → wp (clamp_layers m wb bb) (λ _ w', only_at L w w') w.
Proof.
  unfold clamp_layers. revert w.
  induction m as [|ly m IH]; intros w Hm; [by apply wp_ret|].
  rewrite locs_cons in Hm. simpl. wp_step. wp_step.
  eapply wp_mono; [apply (wp_clamp_attr _ _ _ L); set_solver|].
  intros [[]|e] w1 H1; [|done].
  eapply wp_mono; [apply (wp_clamp_attr _ _ _ L); set_solver|].
  intros [[]|e] w2 H2; [|by eapply only_at_trans].
  eapply wp_mono; [apply IH; set_solver|].
  intros r w3 H3. eauto using only_at_trans.
Qed.

End Frames.

Section OptimizerFrames.
Context `{Environment}.

Lemma wp_adam_step_params o grads k ps L w :
  ps ⊆ L →
  wp (adam_step_params o grads k ps) (λ r w', r = Ok tt ∧ only_at L w w') w.
Proof.
  revert k w. induction ps as [|l ps IH]; intros k w Hps; [by apply wp_ret|].
  simpl. wp_step. wp_step. wp_step.
  eapply wp_mono; [apply (wp_write _ _ L); set_solver|].
  intros r w1 [-> H1].
  eapply wp_mono; [apply IH; set_solver|].
  intros r w2 [-> H2]. eauto using only_at_trans.
Qed.

Lemma wp_step o grads L w :
  opt_params o ⊆ L →
  wp (step o grads)
     (λ r w', only_at L w w' ∧
              ∃ o', r = Ok o' ∧ opt_params o' = opt_params o
                    ∧ opt_steps o' = S (opt_steps o)) w.
Proof.
  intros Ho. unfold step. wp_step.
  eapply wp_mono; [by apply (wp_adam_step_params _ _ _ _ L)|].
  intros r w1 [-> H1]. wp_step. split; [done|]. by eexists.
Qed.

Lemma parameters_subseteq m : parameters m ⊆ locs m.
Proof. unfold parameters, locs. intros l Hl. by rewrite elem_of_remove_dups in Hl. Qed.

End OptimizerFrames.

Section SolverFrames.
Context `{Environment} (self : EIModel).

Lemma wp_pga_loop n model_adv X_hat_max Z_e wb bb abstol o prev fair L w :
  locs model_adv ⊆ L → opt_params o ⊆ L →
  wp (pga_loop self n model_adv X_hat_max Z_e wb bb abstol o prev fair)
     (λ _ w', only_at L w w') w.
Proof.
  intros Hm. revert o prev fair w.
  induction n as [|n IH]; intros o prev fair w Ho; [by apply wp_ret|].
  simpl. wp_step. wp_step. wp_step. wp_step.
  destruct (proxy self Z_e _) as [fl|e]; [|done].
  wp_step. eapply wp_mono; [by apply (wp_step _ _ L)|].
  intros r w1 [H1 (o' & -> & Ho' & _)].
  wp_step. eapply wp_mono; [by apply (wp_clamp_layers _ _ _ L)|].
  intros [[]|e] w2 H2; [|by eapply only_at_trans].
  destruct (Float.ltb _ _); [wp_step; by eapply only_at_trans|].
  eapply wp_mono; [apply IH; by rewrite Ho'|].
  intros r w3 H3. eauto using only_at_trans.
Qed.

End SolverFrames.

(** ** [deepcopy] *)

Section Deepcopy.

Lemma wp_alloc t w :
  wp (alloc t)
     (λ r w', ∃ l, r = Ok l ∧ heap w !! l = None
                   ∧ heap w' = <[l := t]> (heap w) ∧ model_adv w' = model_adv w) w.
Proof.
  unfold wp, alloc. simpl. eexists. split_and!; try done.
  apply not_elem_of_dom, is_fresh.
Qed.

Lemma attr_copy_mono memo memo' a a' :
  memo ⊆ memo' → attr_copy memo a a' → attr_copy memo' a a'.
Proof.
  intros Hsub. destruct 1; constructor. by eapply lookup_weaken.
Qed.

Lemma layer_copy_mono memo memo' ly ly' :
  memo ⊆ memo' → layer_copy memo ly ly' → layer_copy memo' ly ly'.
Proof. intros Hsub [? ?]. split; by eapply attr_copy_mono. Qed.

Lemma wp_deepcopy_param h0 memo l w :
  copy_inv h0 memo w →
  wp (deepcopy_param memo l)
     (λ r w', ∃ l' memo', r = Ok (l', memo') ∧ memo ⊆ memo' ∧ memo' !! l = Some l'
                          ∧ copy_inv h0 memo' w' ∧ model_adv w' = model_adv w) w.
Proof.
  intros (Hsub & Hmemo & Hinj). unfold deepcopy_param.
  destruct (memo !! l) as [l'|] eqn:Hl.
  { wp_step. by exists l', memo. }
  wp_step. wp_step. wp_step.
  eapply wp_mono; [apply wp_alloc|].
  intros r w' (l' & -> & Hfresh & Hheap & Hadv). wp_step.
  assert (h0 !! l' = None) as Hnew by (by eapply lookup_weaken_None).
  assert (∀ k k', memo !! k = Some k' → k' ≠ l') as Hold.
  { intros k k' Hk <-. destruct (Hmemo _ _ Hk) as (_ & [t Ht] & _). congruence. }
  exists l', (<[l := l']> memo). split_and!; try done.
  - by apply insert_subseteq.
  - apply lookup_insert_eq.
  - split_and!.
    + rewrite Hheap. by apply insert_subseteq_r.
    + intros k k' Hk. destruct (decide (k = l)) as [->|Hne].
      * rewrite lookup_insert_eq in Hk. simplify_eq. split_and!; [done| |].
        { rewrite Hheap, lookup_insert_eq. by eexists. }
        intros [t Ht]. rewrite Hheap, lookup_insert_eq, Ht. f_equal.
        unfold read. eapply lookup_weaken in Ht; [|done].
        by rewrite (lookup_total_correct _ _ _ Ht).
      * rewrite lookup_insert_ne in Hk by done.
        destruct (Hmemo _ _ Hk) as (Hout & Hsome & Hval).
        assert (k' ≠ l') as Hk' by (by eapply Hold).
        rewrite Hheap, lookup_insert_ne by done. done.
    + intros l1 l2 k' H1 H2.
      destruct (decide (l1 = l)) as [->|Hne1], (decide (l2 = l)) as [->|Hne2];
        [done| | |].
      * rewrite lookup_insert_eq in H1. rewrite lookup_insert_ne in H2 by done.
        simplify_eq. by destruct (Hold _ _ H2).
      * rewrite lookup_insert_eq in H2. rewrite lookup_insert_ne in H1 by done.
        simplify_eq. by destruct (Hold _ _ H1).
      * rewrite lookup_insert_ne in H1, H2 by done. by eapply Hinj.
Qed.

Lemma wp_deepcopy_attr h0 memo a w :
  copy_inv h0 memo w →
  wp (deepcopy_attr memo a)
     (λ r w', ∃ a' memo', r = Ok (a', memo') ∧ memo ⊆ memo' ∧ attr_copy memo' a a'
                          ∧ copy_inv h0 memo' w' ∧ model_adv w' = model_adv w) w.
Proof.
  intros Hinv. destruct a as [l|].
  - unfold deepcopy_attr. wp_step. eapply wp_mono; [by apply wp_deepcopy_param|].
    intros r w' (l' & memo' & -> & Hsub & Hl & Hinv' & Hadv). wp_step.
    exists (Some l'), memo'. split_and!; try done. by constructor.
  - simpl. wp_step. exists None, memo. split_and!; try done. constructor.
Qed.

Lemma wp_deepcopy_layers h0 memo m w :
  copy_inv h0 memo w →
  wp (deepcopy_layers memo m)
     (λ r w', ∃ copy memo', r = Ok copy ∧ memo ⊆ memo'
                            ∧ Forall2 (layer_copy memo') m copy
                            ∧ copy_inv h0 memo' w' ∧ model_adv w' = model_adv w) w.
Proof.
  revert memo w. induction m as [|ly m IH]; intros memo w Hinv.
  { simpl. wp_step. by exists [], memo. }
  simpl. wp_step. eapply wp_mono; [by apply wp_deepcopy_attr|].
  intros r w1 (a1 & memo1 & -> & Hsub1 & Ha1 & Hinv1 & Hadv1).
  wp_step. eapply wp_mono; [by apply wp_deepcopy_attr|].
  intros r w2 (a2 & memo2 & -> & Hsub2 & Ha2 & Hinv2 & Hadv2).
  wp_step. eapply wp_mono; [by apply IH|].
  intros r w3 (rest & memo3 & -> & Hsub3 & Hrest & Hinv3 & Hadv3).
  wp_step. eexists _, memo3. split_and!; try done.
  - by do 2 (etrans; [eassumption|]).
  - constructor; [|done]. split; simpl.
    + eapply attr_copy_mono; [|exact Ha1]. by etrans.
    + by eapply attr_copy_mono.
  - congruence.
Qed.

Lemma copy_inv_empty w : copy_inv (heap w) ∅ w.
Proof.
  split_and!; [done|..]; intros ? *; by rewrite lookup_empty.
Qed.

Lemma layer_copy_outside h0 memo w m copy :
  copy_inv h0 memo w → Forall2 (layer_copy memo) m copy → outside h0 (locs copy).
Proof.
  intros (_ & Hmemo & _). unfold outside.
  induction 1 as [|ly ly' m copy [Hw Hb] _ IH]; [constructor|].
  rewrite locs_cons, !Forall_app. split_and!; [| |done].
  - destruct Hw as [l l' Hl|]; [|constructor].
    repeat constructor. by apply (Hmemo _ _ Hl).
  - destruct Hb as [l l' Hl|]; [|constructor].
    repeat constructor. by apply (Hmemo _ _ Hl).
Qed.

Lemma layer_copy_values h0 memo w0 w m copy :
  heap w0 = h0 → stored h0 m →
  copy_inv h0 memo w → Forall2 (layer_copy memo) m copy →
  state_dict w copy = state_dict w0 m.
Proof.
  intros <- Hst (_ & Hmemo & _) Hcopy. unfold state_dict, stored in *.
  induction Hcopy as [|ly ly' m copy [Hw Hb] _ IH]; [done|].
  rewrite locs_cons, !Forall_app in Hst. destruct Hst as (Hsw & Hsb & Hsm).
  rewrite !fmap_cons, IH by done. f_equal.
  assert (∀ a a', attr_copy memo a a' → Forall (λ l, is_Some (heap w0 !! l)) (option_list a) →
                  read w <$> a' = read w0 <$> a) as Hattr.
  { intros a a' [l l' Hl|] Hs; [|done]. simpl. f_equal.
    simpl in Hs. rewrite Forall_singleton in Hs. destruct (Hmemo _ _ Hl) as (_ & _ & Hval).
    specialize (Hval Hs). destruct Hs as [t Ht]. unfold read.
    rewrite Ht in Hval.
    by rewrite (lookup_total_correct _ _ _ Hval), (lookup_total_correct _ _ _ Ht). }
  by rewrite (Hattr _ _ Hw), (Hattr _ _ Hb).
Qed.

Lemma wp_deepcopy_memo m w :
  wp (deepcopy m)
     (λ r w', ∃ copy memo, r = Ok copy
                           ∧ Forall2 (layer_copy memo) m copy
                           ∧ copy_inv (heap w) memo w'
                           ∧ model_adv w' = model_adv w) w.
Proof.
  unfold deepcopy.
  eapply wp_mono; [apply (wp_deepcopy_layers (heap w)), copy_inv_empty|].
  intros r w' (copy & memo & -> & _ & Hcopy & Hinv & Hadv). by exists copy, memo.
Qed.

(** [deepcopy] returns a model made of new parameter objects, holding the
    data of the original ones, and leaves every stored parameter alone. *)
Lemma wp_deepcopy m w :
  wp (deepcopy m)
     (λ r w', ∃ copy, r = Ok copy
                      ∧ heap w ⊆ heap w'
                      ∧ outside (heap w) (locs copy)
                      ∧ (stored (heap w) m → state_dict w' copy = state_dict w m)
                      ∧ model_adv w' = model_adv w) w.
Proof.
  eapply wp_mono; [apply wp_deepcopy_memo|].
  intros r w' (copy & memo & -> & Hcopy & Hinv & Hadv).
  exists copy. split_and!; try done.
  - by destruct Hinv.
  - by eapply layer_copy_outside.
  - intros Hst. by eapply layer_copy_values.
Qed.

End Deepcopy.

(** ** The inner solver leaves the stored parameters alone *)

Section SolverFrame.
Context `{Environment} (self : EIModel).

Lemma stored_state_dict (w w' : world) (m : list layer) :
  stored (heap w) m → heap w ⊆ heap w' → state_dict w' m = state_dict w m.
Proof.
  unfold stored, state_dict. intros Hst Hsub.
  induction m as [|ly m IH]; [done|].
  rewrite locs_cons, !Forall_app in Hst. destruct Hst as (Hw & Hb & Hm).
  rewrite !fmap_cons, IH by done. f_equal.
  assert (∀ a, Forall (λ l, is_Some (heap w !! l)) (option_list a) →
               read w' <$> a = read w <$> a) as Hattr.
  { intros [l|] Hs; [|done]. simpl in *. rewrite Forall_singleton in Hs.
    destruct Hs as [t Ht]. unfold read. f_equal.
    rewrite (lookup_total_correct _ _ _ Ht).
    apply lookup_total_correct. by eapply lookup_weaken. }
  by rewrite (Hattr _ Hw), (Hattr _ Hb).
Qed.

Lemma wp_bounded_init m wb bb L w :
  locs m ⊆ L →
  wp (bounded_init m wb bb)
     (λ r w', only_at L w w' ∧ match r with Ok m' => m' = m | Raise _ => True end) w.
Proof.
  intros Hm. unfold bounded_init. wp_step.
  eapply wp_mono; [by apply (wp_clamp_layers _ _ _ L)|].
  intros [[]|e] w1 H1; [|done]. by wp_step.
Qed.

Lemma wp_inner_solver b X_hat_max Z_e abstol n prev w :
  wp (inner_solver self b X_hat_max Z_e abstol n prev)
     (λ r w', heap w ⊆ heap w' ∧ model_adv w' = model_adv w
              ∧ match r with
                | Ok (madv, _, _) =>
                    outside (heap w) (locs madv)
                    ∧ ∃ wc, heap w ⊆ heap wc ∧ only_at (locs madv) wc w'
                            ∧ (stored (heap w) (model self) →
                               state_dict wc madv = state_dict w (model self))
                | Raise _ => True
                end) w.
Proof.
  unfold inner_solver. wp_step.
  eapply wp_mono; [apply wp_deepcopy|].
  intros r wc (copy & -> & Hsub & Hout & Hval & Hadv).
  do 4 (wp_step; wp_step;
        match goal with |- match ?v with Some _ => _ | None => _ end => destruct v end;
        [|by split_and!]).
  wp_step. eapply wp_mono; [apply (wp_bounded_init _ _ _ (locs copy)); done|].
  intros [m'|e] w1 [H1 Hm'];
    [subst m'|split_and!; [by eapply only_at_outside|destruct H1; congruence|done]].
  wp_step. eapply wp_mono.
  { apply (wp_pga_loop self _ _ _ _ _ _ _ _ _ _ (locs copy)); [done|].
    apply parameters_subseteq. }
  intros [[prev' fair]|e] w2 H2.
  - wp_step. pose proof (only_at_trans _ _ _ _ H1 H2) as H12.
    split_and!; [by eapply only_at_outside|destruct H12; congruence|done|by eexists].
  - pose proof (only_at_trans _ _ _ _ H1 H2) as H12.
    split_and!; [by eapply only_at_outside|destruct H12; congruence|done].
Qed.

Lemma wp_batch_forward dataset lamb alpha abstol n prev bt w :
  wp (batch_forward self dataset lamb alpha abstol n prev bt)
     (λ _ w', heap w ⊆ heap w' ∧ model_adv w' = model_adv w) w.
Proof.
  unfold batch_forward. destruct bt as [[X_batch Y_batch] Z_batch].
  wp_step. wp_step. wp_step.
  case_bool_decide; [|by do 2 wp_step].
  wp_step. wp_step. destruct (torch.index_mask X_batch _) as [X_e|e]; [|done].
  wp_step. wp_step. destruct (torch.index_mask Z_batch _) as [Z_e|e]; [|done].
  wp_step. eapply wp_mono; [apply wp_inner_solver|].
  intros [[[madv prev'] fair]|e] w1 (Hsub & Hadv & _); [|done].
  wp_step. wp_step. wp_step. wp_step.
  destruct (proxy self Z_e _) as [fl|e]; [|done].
  by do 2 wp_step.
Qed.

Lemma wp_predict dataset alpha abstol n w :
  wp (predict self dataset alpha abstol n) (λ _ w', heap w ⊆ heap w') w.
Proof.
  unfold predict. wp_step. wp_step. wp_step.
  case_bool_decide.
  - wp_step. wp_step. destruct (torch.index_mask (ds_X dataset) _) as [X_e|e]; [|done].
    wp_step. wp_step. destruct (torch.index_mask (ds_Z dataset) _) as [Z_e|e]; [|done].
    wp_step. wp_step. destruct (predict_box w _ _) as [box|e]; [|done].
    wp_step. eapply wp_mono; [apply wp_inner_solver|].
    intros [[[madv prev'] fair]|e] w1 (Hsub & Hadv & _); [|done].
    wp_run. simpl. by wp_run.
  - wp_step. eapply wp_mono; [apply wp_deepcopy|].
    intros r w1 (copy & -> & Hsub & _). wp_run. simpl. by wp_run.
Qed.

End SolverFrame.

(** ** The predict path *)

Section Predict.
Context `{Environment} (self : EIModel).

Lemma wp_run_eq {A} (c : M A) (Q : result A → world → Prop) w :
  wp c Q w → ∃ r w', c w = (r, w') ∧ Q r w'.
Proof. unfold wp. intros HQ. exists (c w).1, (c w).2. by destruct (c w). Qed.

Lemma leb_not_ltb (x y : float) : Float.leb x y = true → Float.ltb y x = false.
Proof.
  destruct x as [a| | |], y as [b| | |]; simpl; try done.
  intros Hle%bool_decide_eq_true. apply bool_decide_eq_false.
  by apply Qcle_not_lt.
Qed.

Lemma count_none {A} (f : A → bool) (l : list A) :
  Forall (λ x, f x = false) l → torch.count (f <$> l) = 0%nat.
Proof.
  unfold torch.count. induction 1 as [|x l Hx _ IH]; [done|].
  rewrite fmap_cons, filter_cons_False; [done|]. by rewrite Hx.
Qed.

Lemma count_some {A} (f : A → bool) (l : list A) (x : A) :
  x ∈ l → f x = true → (0 < torch.count (f <$> l))%nat.
Proof.
  unfold torch.count. induction 1 as [y l|y z l _ IH]; intros Hx.
  - rewrite fmap_cons, filter_cons_True by done. simpl. lia.
  - rewrite fmap_cons, filter_cons. specialize (IH Hx). case_decide; simpl; lia.
Qed.

End Predict.

(** C1 (the code departs from the specification): when every prediction is at
    least [tau], [predict] stores a deep copy of the primary model, with the
    same parameter values in new parameter objects, as [self.model_adv], and
    then reads the local [X_hat_max], which only the other branch assigns:
    the call raises [UnboundLocalError] instead of returning four values. *)
Theorem predict_above_threshold_raises `{Environment} (self : EIModel)
    (dataset : FairnessDataset) (alpha abstol : float) (pga_n_iters : nat) (w : world) :
  Forall (λ y, Float.leb (tau self) y = true)
         (forward (state_dict w (model self)) (ds_X dataset)) →
  stored (heap w) (model self) →
  ∃ copy w',
    predict self dataset alpha abstol pga_n_iters w
      = (Raise (UnboundLocalError "X_hat_max"), w')
    ∧ model_adv w' = Some copy
    ∧ state_dict w' copy = state_dict w (model self)
    ∧ outside (heap w) (locs copy)
    ∧ heap w ⊆ heap w'.
Proof.
  intros Habove Hst.
  assert (wp (predict self dataset alpha abstol pga_n_iters)
            (λ r w', r = Raise (UnboundLocalError "X_hat_max")
                     ∧ ∃ copy, model_adv w' = Some copy
                               ∧ state_dict w' copy = state_dict w (model self)
                               ∧ outside (heap w) (locs copy)
                               ∧ heap w ⊆ heap w') w) as Hwp.
  { unfold predict. wp_step. wp_step. wp_step.
    rewrite bool_decide_eq_false_2.
    2:{ rewrite count_none; [lia|].
        eapply Forall_impl; [exact Habove|]. intros y. apply leb_not_ltb. }
    wp_step. eapply wp_mono; [apply wp_deepcopy|].
    intros r w1 (copy & -> & Hsub & Hout & Hval & Hadv).
    wp_run. simpl. wp_run. split; [done|]. exists copy. split_and!; try done.
    by apply Hval. }
  apply wp_run_eq in Hwp as (r & w' & Heq & -> & copy & ?).
  by exists copy, w'.
Qed.

(** Witness of [predict_above_threshold_raises]: [LR] on two rows scored 3/4
    and 1, with [tau] = 1/2. *)
Lemma predict_above_threshold_raises_witness :
  ∃ copy w',
    predict (DemoData.ei DemoData.LR) DemoData.ds_high (DemoData.q 1 10)
      DemoData.abstol 50 DemoData.w_LR
      = (Raise (UnboundLocalError "X_hat_max"), w')
    ∧ model_adv w' = Some copy
    ∧ state_dict w' copy = state_dict DemoData.w_LR (model (DemoData.ei DemoData.LR))
    ∧ outside (heap DemoData.w_LR) (locs copy)
    ∧ heap DemoData.w_LR ⊆ heap w'.
Proof.
  apply (predict_above_threshold_raises (DemoData.ei DemoData.LR) DemoData.ds_high
           (DemoData.q 1 10) DemoData.abstol 50 DemoData.w_LR).
  - vm_compute. repeat constructor.
  - vm_compute. repeat constructor; by eexists.
Defined.

Section PredictBias.
Context `{Environment} (self : EIModel).

Lemma predict_box_acc_raise (w : world) (alpha : float) (m : list layer) (e : exn) :
  foldl (λ acc module, b ← acc; predict_box_layer w alpha b module) (Raise e) m
  = Raise e.
Proof. induction m as [|ly m IH]; [done|]. simpl. apply IH. Qed.

Lemma predict_box_layer_raise (w : world) (alpha : float) (b : bounds) (ly : layer) e :
  predict_box_layer w alpha b ly = Raise e → e = item_error.
Proof.
  unfold predict_box_layer, Tensor.item. destruct (bias ly) as [l|]; [|done].
  destruct (data (read w l)) as [|x [|y d]]; simpl; by intros [=].
Qed.

Lemma predict_box_layer_wide (w : world) (alpha : float) (b : bounds) (ly : layer) l :
  bias ly = Some l → (1 < length (data (read w l)))%nat →
  predict_box_layer w alpha b ly = Raise item_error.
Proof.
  intros Hl Hlen. unfold predict_box_layer, Tensor.item. rewrite Hl.
  destruct (data (read w l)) as [|x [|y d]]; simpl in *; try lia. done.
Qed.

Lemma predict_box_wide (w : world) (alpha : float) (m : list layer) ly l acc :
  ly ∈ m → bias ly = Some l → (1 < length (data (read w l)))%nat →
  (∀ e, acc = Raise e → e = item_error) →
  foldl (λ acc module, b ← acc; predict_box_layer w alpha b module) acc m
  = Raise item_error.
Proof.
  intros Hin Hl Hlen. revert acc.
  induction Hin as [ly m|ly ly' m Hin IH]; intros acc Hacc; simpl.
  - destruct acc as [b|e]; simpl.
    + rewrite (predict_box_layer_wide _ _ _ _ _ Hl Hlen). apply predict_box_acc_raise.
    + rewrite (Hacc e eq_refl). apply predict_box_acc_raise.
  - apply IH; [done|]. intros e. destruct acc as [b|e']; simpl.
    + apply predict_box_layer_raise.
    + intros [= <-]. by apply Hacc.
Qed.

Lemma train_box_bias_acc (w : world) (alpha : float) (m : list layer) (b : bounds) :
  is_Some (bias_min b) → is_Some (bias_max b) →
  let b' := foldl (λ b module,
    let b1 :=
      match weight module with
      | Some l =>
          {| weight_min := Some (Tensor.sub_scalar (read w l) alpha);
             weight_max := Some (Tensor.add_scalar (read w l) alpha);
             bias_min := bias_min b; bias_max := bias_max b |}
      | None => b
      end in
    match bias module with
    | Some l =>
        {| weight_min := weight_min b1; weight_max := weight_max b1;
           bias_min := Some (Tensor.sub_scalar (read w l) alpha);
           bias_max := Some (Tensor.add_scalar (read w l) alpha) |}
    | None => b1
    end) b m in
  is_Some (bias_min b') ∧ is_Some (bias_max b').
Proof.
  revert b. induction m as [|ly m IH]; intros b Hmin Hmax; [done|].
  simpl. apply IH; destruct (weight ly), (bias ly); simpl; eauto.
Qed.

Lemma train_box_bias (w : world) (alpha : float) (m : list layer) ly l :
  ly ∈ m → bias ly = Some l →
  is_Some (bias_min (train_box w m alpha)) ∧ is_Some (bias_max (train_box w m alpha)).
Proof.
  intros Hin Hl. unfold train_box. generalize unbound.
  induction Hin as [ly m|ly ly' m Hin IH]; intros b0; simpl.
  - apply train_box_bias_acc; rewrite Hl; destruct (weight ly); simpl; eauto.
  - by apply IH.
Qed.

End PredictBias.

(** C10: when some prediction is below [tau] and some layer carries a bias
    with more than one element, [predict] raises at [bias.data.item()], before
    anything is copied; the training path computes the bias bounds of the
    same model as tensors, without [item()]. *)
Theorem predict_wide_bias_raises `{Environment} (self : EIModel)
    (dataset : FairnessDataset) (alpha abstol : float) (pga_n_iters : nat) (w : world)
    (y : float) (ly : layer) (l : loc) :
  let Y_hat := forward (state_dict w (model self)) (ds_X dataset) in
  length (ds_X dataset) = length Y_hat →
  length (ds_Z dataset) = length Y_hat →
  y ∈ Y_hat → Float.ltb y (tau self) = true →
  ly ∈ model self → bias ly = Some l → (1 < length (data (read w l)))%nat →
  predict self dataset alpha abstol pga_n_iters w
    = (Raise (RuntimeError "a Tensor with several elements cannot be converted to Scalar"), w)
  ∧ ∀ curr_alpha,
      is_Some (bias_min (train_box w (model self) curr_alpha))
      ∧ is_Some (bias_max (train_box w (model self) curr_alpha)).
Proof.
  intros Y_hat HX HZ Hy Hlt Hly Hl Hlen. split; [|intros; by eapply train_box_bias].
  unfold predict, mbind, M_bind, get, lift. simpl. fold Y_hat.
  rewrite bool_decide_eq_true_2 by (by eapply count_some).
  unfold torch.index_mask.
  rewrite !bool_decide_eq_true_2 by (by rewrite length_fmap).
  unfold predict_box. by erewrite predict_box_wide.
Qed.

(** Witness of [predict_wide_bias_raises]: a linear layer with two outputs. *)
Lemma predict_wide_bias_raises_witness :
  predict (DemoData.ei DemoData.LR) DemoData.ds (DemoData.q 1 10) DemoData.abstol 50
    DemoData.w_wide
    = (Raise (RuntimeError "a Tensor with several elements cannot be converted to Scalar"),
       DemoData.w_wide)
  ∧ ∀ curr_alpha,
      is_Some (bias_min (train_box DemoData.w_wide (model (DemoData.ei DemoData.LR)) curr_alpha))
      ∧ is_Some (bias_max (train_box DemoData.w_wide (model (DemoData.ei DemoData.LR)) curr_alpha)).
Proof.
  apply (predict_wide_bias_raises (DemoData.ei DemoData.LR) DemoData.ds (DemoData.q 1 10)
           DemoData.abstol 50 DemoData.w_wide (DemoData.q 1 4)
           {| weight := Some 1%positive; bias := Some 2%positive |} 2%positive).
  - reflexivity.
  - reflexivity.
  - vm_compute. apply list_elem_of_here.
  - reflexivity.
  - apply list_elem_of_here.
  - reflexivity.
  - vm_compute. lia.
Defined.

(** C9: whatever the inputs, and whether it returns or raises, a run of the
    inner solver leaves every stored parameter tensor as it was: the heap
    before the run is included in the heap after it.  The adversarial model
    it returns is made of parameter objects that did not exist before.  The
    same holds of the two places that run it: the forward pass of a training
    batch and [predict]. *)
Theorem inner_solver_keeps_primary `{Environment} (self : EIModel)
    (b : bounds) (X_hat_max : features) (Z_e : list float) (abstol : float)
    (pga_n_iters : nat) (prev_loss : float)
    (dataset : FairnessDataset) (lamb alpha : float) (bt : batch) (w : world) :
  let run := inner_solver self b X_hat_max Z_e abstol pga_n_iters prev_loss w in
  heap w ⊆ heap run.2
  ∧ match run.1 with
    | Ok (model_adv, _, _) => outside (heap w) (locs model_adv)
    | Raise _ => True
    end
  ∧ heap w ⊆ heap (batch_forward self dataset lamb alpha abstol pga_n_iters prev_loss bt w).2
  ∧ heap w ⊆ heap (predict self dataset alpha abstol pga_n_iters w).2.
Proof.
  intros run.
  pose proof (wp_inner_solver self b X_hat_max Z_e abstol pga_n_iters prev_loss w) as Hs.
  pose proof (wp_batch_forward self dataset lamb alpha abstol pga_n_iters prev_loss bt w) as Hb.
  pose proof (wp_predict self dataset alpha abstol pga_n_iters w) as Hp.
  unfold wp in Hs, Hb, Hp. fold run in Hs.
  destruct Hs as (Hsub & _ & Hr), Hb as [Hb _].
  split_and!; try done.
  destruct run.1 as [[[madv ?] ?]|e]; [|done]. by destruct Hr.
Qed.

(** ** The end of an epoch *)

Section Epochs.
Context `{Environment} (self : EIModel).

Lemma train_epochs_raises dataset lamb alpha n_epochs batch_size abstol pga_n_iters
    todo epoch st last w :
  ∃ e w',
    train_epochs self dataset lamb alpha n_epochs batch_size abstol pga_n_iters
      todo epoch st last w = (Raise e, w')
    ∧ match todo with
      | O => match last with
             | None => e = UnboundLocalError "batch_losses"
             | Some _ => e = mean_type_error
             end ∧ w' = w
      | S _ =>
          let st0 := {| optimizer_ := optimizer_ st; prev_loss := prev_loss st;
                        batch_losses := [] |} in
          let batches :=
            train_batches self dataset lamb (curr_alpha alpha epoch n_epochs) abstol
              pga_n_iters st0 (DataLoader dataset batch_size epoch) w in
          match batches.1 with
          | Ok _ => e = mean_type_error
          | Raise e' => e = e'
          end ∧ w' = batches.2
      end.
Proof.
  destruct todo as [|todo]; simpl.
  - destruct last as [bl|]; by eexists _, _.
  - unfold mbind at 1, M_bind at 1.
    destruct (train_batches _ _ _ _ _ _ _ _ w) as [[st1|e] w1]; by eexists _, _.
Qed.

End Epochs.

(** C3 (the code departs from the specification): [train] never reaches the
    comparison of the epoch means.  At the end of the first epoch
    [torch.mean] is given the Python list [batch_losses] and raises
    [TypeError]; with no epoch configured the statement after the loop reads
    [batch_losses] before any assignment.  So every call of [train] raises:
    it neither returns early on convergence nor runs all the epochs. *)
Theorem train_never_returns `{Environment} (self : EIModel)
    (dataset : FairnessDataset) (lamb alpha lr : float) (n_epochs batch_size : nat)
    (abstol : float) (pga_n_iters : nat) (w : world) :
  ∃ e w',
    train self dataset lamb alpha lr n_epochs batch_size abstol pga_n_iters w
      = (Raise e, w')
    ∧ (e = TypeError "mean(): argument 'input' (position 1) must be Tensor, not list"
       ∨ e = UnboundLocalError "batch_losses" ∧ n_epochs = 0%nat
       ∨ ∃ st, (train_batches self dataset lamb (curr_alpha alpha 0 n_epochs) abstol
                  pga_n_iters st (DataLoader dataset batch_size 0) w).1 = Raise e).
Proof.
  unfold train.
  match goal with
  | |- context [train_epochs _ _ _ _ _ _ _ _ _ _ ?st ?last ?w] =>
      destruct (train_epochs_raises self dataset lamb alpha n_epochs batch_size abstol
                  pga_n_iters n_epochs 0 st last w) as (e & w' & Heq & Hcase)
  end.
  exists e, w'. split; [done|].
  destruct n_epochs as [|n]; simpl in Hcase.
  - right; left. by destruct Hcase.
  - destruct Hcase as [Hcase _].
    match type of Hcase with
    | match ?r with _ => _ end => destruct r as [st1|e'] eqn:Hr
    end.
    + by left.
    + right; right. subst e'. by eexists.
Qed.

(** ** One batch of training *)

Section TrainBatch.
Context `{Environment} (self : EIModel).
Implicit Types (dataset : FairnessDataset) (st : train_state) (bt : batch) (w : world).


Lemma train_batch_nan dataset lamb alpha abstol n st bt w loss prev' adv w1 :
  batch_forward self dataset lamb alpha abstol n (prev_loss st) bt w
    = (Ok (loss, prev', adv), w1) →
  isnan loss = true →
  train_batch self dataset lamb alpha abstol n st bt w
  = (Ok {| optimizer_ := optimizer_ st; prev_loss := prev';
           batch_losses := batch_losses st |}, w1).
Proof.
  intros Hbf Hnan. unfold train_batch, mbind at 1, M_bind at 1.
  by rewrite Hbf, Hnan.
Qed.


End TrainBatch.


(** C4 (as the specification states it, refuted): a batch whose combined loss
    is +inf is not skipped.  [LR] predicts the labels 0 and 1 of the batch
    exactly, so the prediction loss is 0 (as the binary cross-entropy is
    there); one prediction is below [tau], the inner solver runs without a
    round, and the proxy the caller passed returns +inf.  The combined loss
    is +inf, which is not NaN: the optimizer takes its first step, the loss
    is recorded, and the parameters of the primary model move. *)
Lemma infinite_loss_not_skipped :
  let self := ei_infinite in
  let dataset := ds_exact in
  let bt := (ds_X dataset, ds_Y dataset, ds_Z dataset) in
  let st := {| optimizer_ := Adam (parameters (model self))
                               {| lr := DemoData.q 1 1000;
                                  weight_decay := DemoData.q 1 10000;
                                  maximize := false |};
               prev_loss := zero; batch_losses := [] |} in
  let w := DemoData.w_LR in
  let Y_hat := forward (state_dict w (model self)) (ds_X dataset) in
  let run := train_batch self dataset (DemoData.q 1 2) zero DemoData.abstol 0 st bt w in
  forallb (λ p, Float.eqb p.1 p.2) (zip Y_hat (ds_Y dataset)) = true
  ∧ Float.eqb (BCELoss Y_hat (ds_Y dataset)) zero = true
  ∧ (0 < torch.count ((λ y, Float.ltb y (tau self)) <$> Y_hat))%nat
  ∧ match (batch_forward self dataset (DemoData.q 1 2) zero DemoData.abstol 0 zero bt w).1 with
    | Ok (batch_loss, _, _) => batch_loss = PInf
    | Raise _ => False
    end
  ∧ isnan PInf = false
  ∧ isfinite PInf = false
  ∧ match run.1 with
    | Ok st' => opt_steps (optimizer_ st') = 1%nat ∧ batch_losses st' = [PInf]
    | Raise _ => False
    end
  ∧ state_dict run.2 (model self) ≠ state_dict w (model self).
Proof.
  vm_compute. split_and!; try reflexivity; try lia. intros [=].
Qed.

Section BatchForward.
Context `{Environment} (self : EIModel).





End BatchForward.

(** C4 (amended): for a training batch whose combined loss is NaN, the
    optimizer step is skipped: the optimizer and the recorded losses are as
    before, every stored parameter is unchanged, so the parameters of the
    primary model are what they were, and the loop goes on with the next
    batch.  (An infinite loss is not skipped.) *)
Theorem nan_loss_skips_step `{Environment} (self : EIModel)
    (dataset : FairnessDataset) (lamb alpha abstol : float) (pga_n_iters : nat)
    (st : train_state) (bt : batch) (rest : list batch) (w : world)
    (loss prev' : float) adv (w1 : world) :
  batch_forward self dataset lamb alpha abstol pga_n_iters (prev_loss st) bt w
    = (Ok (loss, prev', adv), w1) →
  isnan loss = true →
  stored (heap w) (model self) →
  let st' := {| optimizer_ := optimizer_ st; prev_loss := prev';
                batch_losses := batch_losses st |} in
  train_batch self dataset lamb alpha abstol pga_n_iters st bt w = (Ok st', w1)
  ∧ heap w ⊆ heap w1
  ∧ state_dict w1 (model self) = state_dict w (model self)
  ∧ train_batches self dataset lamb alpha abstol pga_n_iters st (bt :: rest) w
    = train_batches self dataset lamb alpha abstol pga_n_iters st' rest w1.
Proof.
  intros Hbf Hnan Hst st'.
  pose proof (train_batch_nan self _ _ _ _ _ _ _ _ _ _ _ _ Hbf Hnan) as Htb.
  assert (heap w ⊆ heap w1) as Hsub.
  { pose proof (wp_batch_forward self dataset lamb alpha abstol pga_n_iters
                  (prev_loss st) bt w) as Hwp.
    unfold wp in Hwp. rewrite Hbf in Hwp. by destruct Hwp. }
  split_and!; try done.
  - by apply stored_state_dict.
  - simpl. unfold mbind at 1, M_bind at 1. by rewrite Htb.
Qed.

(** Witness of [nan_loss_skips_step]: [LR] on one row whose label is NaN. *)
Lemma nan_loss_skips_step_witness :
  let self := DemoData.ei DemoData.LR in
  let dataset := DemoData.ds_nan in
  let bt := (ds_X dataset, ds_Y dataset, ds_Z dataset) in
  let st := {| optimizer_ := Adam (parameters (model self))
                               {| lr := DemoData.q 1 1000;
                                  weight_decay := DemoData.q 1 10000;
                                  maximize := false |};
               prev_loss := zero; batch_losses := [] |} in
  let w := DemoData.w_LR in
  let st' := {| optimizer_ := optimizer_ st; prev_loss := zero;
                batch_losses := batch_losses st |} in
  train_batch self dataset (DemoData.q 1 2) zero DemoData.abstol 50 st bt w = (Ok st', w)
  ∧ heap w ⊆ heap w
  ∧ state_dict w (model self) = state_dict w (model self)
  ∧ train_batches self dataset (DemoData.q 1 2) zero DemoData.abstol 50 st (bt :: [bt]) w
    = train_batches self dataset (DemoData.q 1 2) zero DemoData.abstol 50 st' [bt] w.
Proof.
  intros self dataset bt st w.
  apply (nan_loss_skips_step self dataset (DemoData.q 1 2) zero DemoData.abstol 50
           st bt [bt] w NaN zero None w).
  - by vm_compute.
  - reflexivity.
  - vm_compute. repeat constructor; by eexists.
Defined.



(** ** The radius of the box *)

Section Radius.





End Radius.

(** ** A box of radius zero *)

Section PointBox.










Lemma run_bind {A B} (c : M A) (f : A → M B) a w w' :
  c w = (Ok a, w') → (c ≫= f) w = f a w'.
Proof. intros Hc. unfold mbind, M_bind. by rewrite Hc. Qed.

Lemma for_each_paramless (pre rest : list layer) (wb bb : tensor * tensor) w :
  Forall paramless pre →
  clamp_layers (pre ++ rest) wb bb w = clamp_layers rest wb bb w.
Proof.
  unfold clamp_layers. induction 1 as [|ly pre [Hw Hb] _ IH]; [done|].
  simpl. unfold mbind at 1, M_bind at 1. by rewrite Hw, Hb.
Qed.

Lemma clamp_layers_paramless (post : list layer) (wb bb : tensor * tensor) w :
  Forall paramless post → clamp_layers post wb bb w = (Ok tt, w).
Proof.
  intros Hp. rewrite <-(app_nil_r post). by rewrite for_each_paramless.
Qed.


End PointBox.

Section SingleLayer.
Context `{Environment} (self : EIModel).

Lemma train_box_paramless w alpha (ls : list layer) (b : bounds) :
  Forall paramless ls →
  foldl (λ b module,
    let b1 :=
      match weight module with
      | Some l =>
          {| weight_min := Some (Tensor.sub_scalar (read w l) alpha);
             weight_max := Some (Tensor.add_scalar (read w l) alpha);
             bias_min := bias_min b; bias_max := bias_max b |}
      | None => b
      end in
    match bias module with
    | Some l =>
        {| weight_min := weight_min b1; weight_max := weight_max b1;
           bias_min := Some (Tensor.sub_scalar (read w l) alpha);
           bias_max := Some (Tensor.add_scalar (read w l) alpha) |}
    | None => b1
    end) b ls = b.
Proof.
  intros Hls. revert b. induction Hls as [|ly ls [Hw Hb] _ IH]; intros b; [done|].
  simpl. rewrite Hw, Hb. apply IH.
Qed.

(** The box of a model whose parameters are those of one layer is centred on
    that layer. *)
Lemma train_box_single w alpha pre post lw lb :
  Forall paramless pre → Forall paramless post →
  train_box w (pre ++ {| weight := Some lw; bias := Some lb |} :: post) alpha
  = {| weight_min := Some (Tensor.sub_scalar (read w lw) alpha);
       weight_max := Some (Tensor.add_scalar (read w lw) alpha);
       bias_min := Some (Tensor.sub_scalar (read w lb) alpha);
       bias_max := Some (Tensor.add_scalar (read w lb) alpha) |}.
Proof.
  intros Hpre Hpost. unfold train_box.
  rewrite foldl_app, (train_box_paramless w alpha pre) by done. simpl.
  by rewrite (train_box_paramless w alpha post).
Qed.

Lemma locs_paramless (ls : list layer) : Forall paramless ls → locs ls = [].
Proof. induction 1 as [|ly ls [Hw Hb] _ IH]; [done|]. by rewrite locs_cons, Hw, Hb. Qed.

Lemma locs_single pre post lw lb :
  Forall paramless pre → Forall paramless post →
  locs (pre ++ {| weight := Some lw; bias := Some lb |} :: post) = [lw; lb].
Proof.
  intros Hpre Hpost. unfold locs. rewrite bind_app. fold (locs pre).
  rewrite locs_paramless by done. simpl. fold (locs post).
  by rewrite locs_paramless.
Qed.

Lemma state_dict_paramless w (ls : list layer) :
  Forall paramless ls → state_dict w ls = (λ _, (None, None)) <$> ls.
Proof.
  unfold state_dict. induction 1 as [|ly ls [Hw Hb] _ IH]; [done|].
  by rewrite !fmap_cons, IH, Hw, Hb.
Qed.

Lemma state_dict_single w pre post lw lb :
  Forall paramless pre → Forall paramless post →
  state_dict w (pre ++ {| weight := Some lw; bias := Some lb |} :: post)
  = ((λ _, (None, None)) <$> pre) ++ (Some (read w lw), Some (read w lb))
      :: ((λ _, (None, None)) <$> post).
Proof.
  intros Hpre Hpost. unfold state_dict at 1. rewrite fmap_app, fmap_cons.
  fold (state_dict w pre). fold (state_dict w post).
  by rewrite !state_dict_paramless.
Qed.

Lemma adam_step_tensor_compatible o grads k t :
  (∀ n mo k i x g, isfinite x = true → isfinite g = true →
     isnan (adam_update (opt_config o) n mo k i x g) = false) →
  (∀ k i, isfinite (grads k i) = true) →
  Forall (λ x, isfinite x = true) (data t) →
  compatible (adam_step_tensor o grads k t) t.
Proof.
  intros Hnn Hg Ht. unfold compatible, adam_step_tensor. simpl. split; [done|].
  apply Forall2_same_length_lookup_2; [by rewrite length_imap|].
  intros i x y Hi Hy. rewrite list_lookup_imap, Hy in Hi. simplify_eq/=.
  left. apply Hnn; [|done]. rewrite Forall_forall in Ht.
  apply Ht. by eapply list_elem_of_lookup_2.
Qed.

(** One optimizer step on the two parameters of the layer. *)
Lemma step_single o grads lw lb tw tb w :
  (∀ n mo k i x g, isfinite x = true → isfinite g = true →
     isnan (adam_update (opt_config o) n mo k i x g) = false) →
  (∀ k i, isfinite (grads k i) = true) →
  Forall (λ x, isfinite x = true) (data tw) →
  Forall (λ x, isfinite x = true) (data tb) →
  opt_params o = [lw; lb] → lw ≠ lb →
  heap w !! lw = Some tw → heap w !! lb = Some tb →
  ∃ o' t1 t2,
    step o grads w = (Ok o', set_heap (<[lb := t2]> (<[lw := t1]> (heap w))) w)
    ∧ opt_params o' = [lw; lb] ∧ opt_config o' = opt_config o
    ∧ compatible t1 tw ∧ compatible t2 tb.
Proof.
  intros Hnn Hg Hfw Hfb Hps Hne Hw Hb. unfold step. rewrite Hps.
  exists {| opt_params := [lw; lb]; opt_config := opt_config o;
            opt_steps := S (opt_steps o);
            opt_moments := adam_next (opt_config o) (opt_moments o) grads |},
    (adam_step_tensor o grads 0 tw), (adam_step_tensor o grads 1 tb).
  split_and!; [|done|done|by apply adam_step_tensor_compatible..].
  unfold adam_step_params, mbind, M_bind, get, write, modify, read. simpl.
  rewrite (lookup_total_correct _ _ _ Hw).
  rewrite (lookup_total_insert_ne (heap w)) by done.
  rewrite (lookup_total_correct _ _ _ Hb). done.
Qed.

End SingleLayer.

Section PointSolver.
Context `{Environment} (self : EIModel).

Lemma wp_of_run {A} (c : M A) (Q : result A → world → Prop) r w w' :
  c w = (r, w') → Q r w' → wp c Q w.
Proof. unfold wp. by intros ->. Qed.

Lemma set_heap_lookup h w l : heap (set_heap h w) !! l = h !! l.
Proof. done. Qed.


Lemma attr_copy_None memo a' : attr_copy memo None a' → a' = None.
Proof. by inversion 1. Qed.

Lemma attr_copy_Some memo l a' : attr_copy memo (Some l) a' → ∃ l', a' = Some l' ∧ memo !! l = Some l'.
Proof. inversion 1; simplify_eq. by eexists. Qed.

Lemma layer_copy_paramless memo (ls copy : list layer) :
  Forall2 (layer_copy memo) ls copy → Forall paramless ls → Forall paramless copy.
Proof.
  induction 1 as [|ly ly' ls copy [Hw Hb] _ IH]; [done|].
  intros [[Hlw Hlb] Hls]%Forall_cons. constructor; [|by apply IH].
  rewrite Hlw in Hw. rewrite Hlb in Hb.
  split; by eapply attr_copy_None.
Qed.

(** The copy of a model with one parametrised layer has the same form. *)
Lemma layer_copy_single memo pre post lw lb copy :
  Forall2 (layer_copy memo) (pre ++ {| weight := Some lw; bias := Some lb |} :: post) copy →
  Forall paramless pre → Forall paramless post →
  ∃ pre' post' lw' lb',
    copy = pre' ++ {| weight := Some lw'; bias := Some lb' |} :: post'
    ∧ Forall paramless pre' ∧ Forall paramless post'
    ∧ length pre' = length pre ∧ length post' = length post
    ∧ memo !! lw = Some lw' ∧ memo !! lb = Some lb'.
Proof.
  intros (pre' & rest & Hpre' & Hrest & ->)%Forall2_app_inv_l Hpre Hpost.
  apply Forall2_cons_inv_l in Hrest as (lin' & post' & [Hw Hb] & Hpost' & ->).
  simpl in Hw, Hb.
  apply attr_copy_Some in Hw as (lw' & Hlw' & Hmw).
  apply attr_copy_Some in Hb as (lb' & Hlb' & Hmb).
  exists pre', post', lw', lb'. split_and!; try done.
  - destruct lin'. simpl in *. by subst.
  - by eapply layer_copy_paramless.
  - by eapply layer_copy_paramless.
  - symmetry. by eapply Forall2_length.
  - symmetry. by eapply Forall2_length.
Qed.

Lemma parameters_single pre post lw lb :
  Forall paramless pre → Forall paramless post → lw ≠ lb →
  parameters (pre ++ {| weight := Some lw; bias := Some lb |} :: post) = [lw; lb].
Proof.
  intros Hpre Hpost Hne. unfold parameters. fold (locs (pre ++ {| weight := Some lw; bias := Some lb |} :: post)).
  rewrite locs_single by done. simpl.
  case_decide as Hin; [|done]. by apply list_elem_of_singleton in Hin.
Qed.


End PointSolver.

(** ** The claims about the radius and the box *)

(** C5 (the code departs from the specification): the bounds are kept in
    four locals that every layer overwrites, so all the layers are clamped
    into the box of the last one.  On [NN] (weights 1 and 1/2) one round of
    the ascent leaves the adversarial model outside the boxes of the primary
    parameters, with radius 1/10 and already with radius 0 in the first
    epoch; on [LR], whose parameters sit in one layer, it stays inside. *)
Theorem box_of_last_layer_wins :
  let bt := (ds_X DemoData.ds, ds_Y DemoData.ds, ds_Z DemoData.ds) in
  let run (m : list layer) (w : world) (radius : float) :=
    adversarial_values
      (batch_forward (DemoData.ei m) DemoData.ds (DemoData.q 1 2) radius
         DemoData.abstol 1 zero bt w).1 in
  let inside (m : list layer) (w : world) (radius : float) :=
    (λ θ_adv, in_box θ_adv (state_dict w m) radius) <$> run m w radius in
  inside DemoData.NN DemoData.w_NN (curr_alpha one 1 10) = Some false
  ∧ inside DemoData.NN DemoData.w_NN (curr_alpha one 0 10) = Some false
  ∧ inside DemoData.LR DemoData.w_LR (curr_alpha one 1 10) = Some true
  ∧ inside DemoData.LR DemoData.w_LR (curr_alpha one 0 10) = Some true
  ∧ weight_min (train_box DemoData.w_NN DemoData.NN (curr_alpha one 1 10))
    = Some (Tensor.sub_scalar (read DemoData.w_NN 3%positive) (curr_alpha one 1 10)).
Proof. vm_compute. by split_and!. Qed.

(** [train] at a concrete input.  Twenty epochs are configured and the
    tolerance is generous, yet the call raises at the end of the first
    epoch. *)
Example train_raises_on_demo :
  (train (DemoData.ei DemoData.LR) DemoData.ds (DemoData.q 1 2) (DemoData.q 1 10)
     (DemoData.q 1 1000) 20 50 (DemoData.q 1 1) 50 DemoData.w_LR).1
  = Raise (TypeError "mean(): argument 'input' (position 1) must be Tensor, not list").
Proof. by vm_compute. Qed.




(** * Further properties of the proxies *)

Section ProxyArithmetic.

Lemma float_abs_nonpos q : q ≤ 0 → Float.abs (Fin q) = Fin (- q).
Proof.
  intros Hq. simpl. case_bool_decide as Hlt; [done|].
  apply Qcnot_lt_le in Hlt.
  assert (q = 0) as -> by (by apply Qcle_antisym). f_equal; ring.
Qed.

Lemma float_abs_fin q : ∃ r, 0 ≤ r ∧ Float.abs (Fin q) = Fin r.
Proof.
  destruct (Qclt_le_dec q 0) as [Hq|Hq].
  - exists (- q). split; [|by apply float_abs_nonpos, Qclt_le_weak].
    apply Qclt_le_weak, Qcopp_le_compat in Hq. by replace (- 0) with 0 in Hq by ring.
  - exists q. split; [done|]. by apply float_abs_nonneg.
Qed.

Lemma Qc_mult_nonneg_nonpos (a t : Qc) : 0 ≤ a → t ≤ 0 → a * t ≤ 0.
Proof.
  intros Ha Ht.
  assert (0 ≤ a * - t) as Hm.
  { apply Qcmult_nonneg_nonneg; [done|].
    apply Qcopp_le_compat in Ht. by replace (- 0) with 0 in Ht by ring. }
  apply Qcopp_le_compat in Hm.
  replace (- 0) with 0 in Hm by ring.
  by replace (- (a * - t)) with (a * t) in Hm by ring.
Qed.

Lemma Qc_opp_nonneg (q : Qc) : q ≤ 0 → 0 ≤ - q.
Proof.
  intros Hq. apply Qcopp_le_compat in Hq. by replace (- 0) with 0 in Hq by ring.
Qed.

Lemma Qc_opp_nonpos (q : Qc) : 0 ≤ q → - q ≤ 0.
Proof.
  intros Hq. apply Qcopp_le_compat in Hq. by replace (- 0) with 0 in Hq by ring.
Qed.

(** The gaps of two numbers to their weighted mean add up to their
    distance. *)
Lemma gap_to_weighted_mean (x y a b : Qc) :
  0 < a → 0 < b →
  (zero + Float.abs (Fin x - Fin ((a * x + b * y) / (a + b)))
        + Float.abs (Fin y - Fin ((a * x + b * y) / (a + b))))%F
  = Float.abs (Fin x - Fin y)%F.
Proof.
  intros Ha Hb.
  assert (0 < a + b) as Hab.
  { apply Qclt_le_trans with a; [done|].
    rewrite <-(Qcplus_0_r a) at 1. apply Qcplus_le_mono_l. by apply Qclt_le_weak. }
  assert (a + b ≠ 0) as Hne.
  { intros Heq. rewrite Heq in Hab. by apply Qclt_not_le in Hab. }
  set (t := (x - y) / (a + b)).
  unfold Float.sub. cbn [neg Float.add].
  replace (x + - ((a * x + b * y) / (a + b))) with (b * t) by (unfold t; field; done).
  replace (y + - ((a * x + b * y) / (a + b))) with (- (a * t)) by (unfold t; field; done).
  replace (x + - y) with ((a + b) * t) by (unfold t; field; done).
  apply Qclt_le_weak in Ha as Ha', Hb as Hb', Hab as Hab'.
  destruct (Qclt_le_dec t 0) as [Ht|Ht].
  - apply Qclt_le_weak in Ht.
    rewrite (float_abs_nonpos (b * t)) by (by apply Qc_mult_nonneg_nonpos).
    rewrite (float_abs_nonneg (- (a * t)))
      by (by apply Qc_opp_nonneg, Qc_mult_nonneg_nonpos).
    rewrite (float_abs_nonpos ((a + b) * t)) by (by apply Qc_mult_nonneg_nonpos).
    unfold zero. cbn [Float.add]. f_equal; ring.
  - rewrite (float_abs_nonneg (b * t)) by (by apply Qcmult_nonneg_nonneg).
    rewrite (float_abs_nonpos (- (a * t)))
      by (by apply Qc_opp_nonpos, Qcmult_nonneg_nonneg).
    rewrite (float_abs_nonneg ((a + b) * t)) by (by apply Qcmult_nonneg_nonneg).
    unfold zero. cbn [Float.add]. f_equal; ring.
Qed.

End ProxyArithmetic.

Section ProxyGroups.

Lemma mse_ones_fin_eq (qs : list Qc) :
  qs ≠ [] →
  mse_ones (Fin <$> qs)
  = Fin (foldr Qcplus 0 ((λ q, (q + - 1) * (q + - 1)) <$> qs)
         / Qc_of_Z (Z.of_nat (length qs))).
Proof.
  intros Hqs. unfold mse_ones.
  assert ((λ y, square (y - one)%F) <$> (Fin <$> qs)
          = Fin <$> ((λ q, (q + - 1) * (q + - 1)) <$> qs)) as ->.
  { by rewrite <-!list_fmap_compose. }
  rewrite mean_fin by (by destruct qs). by rewrite length_fmap.
Qed.

Lemma foldr_Qcplus_app (a b : list Qc) :
  foldr Qcplus 0 (a ++ b) = foldr Qcplus 0 a + foldr Qcplus 0 b.
Proof. induction a as [|q a IH]; simpl; [ring|]. rewrite IH. ring. Qed.

Lemma eqb_zero_one (v : float) :
  Float.eqb v (of_nat 0) = true → Float.eqb v (of_nat 1) = false.
Proof.
  destruct v as [a| | |]; simpl; try done.
  intros Ha%bool_decide_eq_true. subst a.
  apply bool_decide_eq_false_2. intros Heq%Z2Qc_inj. done.
Qed.

(** The rows of the subgroups 0 and 1 are all the rows, when no other
    subgroup occurs. *)
Lemma group_rows_split (rows : list (float * float)) :
  Forall (λ r, Float.eqb r.1 (of_nat 0) = true ∨ Float.eqb r.1 (of_nat 1) = true) rows →
  rows ≡ₚ group_rows 0 rows ++ group_rows 1 rows.
Proof.
  unfold group_rows. induction 1 as [|r rows Hr _ IH]; [done|].
  destruct (Float.eqb r.1 (of_nat 0)) eqn:H0.
  - rewrite filter_cons_True by done.
    rewrite (filter_cons_False _ r) by (by rewrite (eqb_zero_one _ H0)).
    simpl. by constructor.
  - destruct Hr as [?|H1]; [done|].
    rewrite filter_cons_False by (by rewrite H0).
    rewrite (filter_cons_True _ r) by done.
    by rewrite <-Permutation_middle, <-IH.
Qed.

Lemma group_rows_finite (z : nat) (rows : list (float * float)) :
  Forall (λ x, isfinite x = true) rows.*2 →
  Forall (λ x, isfinite x = true) (group_rows z rows).*2.
Proof.
  intros Hfin. apply Forall_fmap. apply Forall_fmap in Hfin.
  rewrite Forall_forall in Hfin. apply Forall_forall.
  intros r [_ Hr]%list_elem_of_filter. by apply Hfin.
Qed.

Lemma fair_batch_rows_two_groups (rows : list (float * float)) :
  Forall (λ x, isfinite x = true) rows.*2 →
  Forall (λ r, Float.eqb r.1 (of_nat 0) = true ∨ Float.eqb r.1 (of_nat 1) = true) rows →
  group_rows 0 rows ≠ [] → group_rows 1 rows ≠ [] →
  fair_batch_rows rows
  = Float.abs (mse_ones (group_rows 0 rows).*2 - mse_ones (group_rows 1 rows).*2)%F.
Proof.
  intros Hfin Hz H0 H1. unfold fair_batch_rows, group_loss.
  rewrite !bool_decide_eq_false_2 by (by intros ?%nil_length_inv).
  rewrite (group_rows_split rows Hz) at 2 4. rewrite fmap_app.
  destruct (finite_list _ (group_rows_finite 0 rows Hfin)) as [qa Ha].
  destruct (finite_list _ (group_rows_finite 1 rows Hfin)) as [qb Hb].
  rewrite Ha, Hb, <-fmap_app.
  assert (qa ≠ []) as Hqa by (intros ->; by destruct (group_rows 0 rows)).
  assert (qb ≠ []) as Hqb by (intros ->; by destruct (group_rows 1 rows)).
  rewrite !mse_ones_fin_eq by (by destruct qa, qb).
  rewrite fmap_app, foldr_Qcplus_app, length_app, Nat2Z.inj_add, Z2Qc_inj_add.
  set (Sa := foldr Qcplus 0 ((λ q, (q + - 1) * (q + - 1)) <$> qa)).
  set (Sb := foldr Qcplus 0 ((λ q, (q + - 1) * (q + - 1)) <$> qb)).
  set (na := Qc_of_Z (Z.of_nat (length qa))).
  set (nb := Qc_of_Z (Z.of_nat (length qb))).
  assert (0 < na) as Hna by (apply of_nat_pos; by destruct qa).
  assert (0 < nb) as Hnb by (apply of_nat_pos; by destruct qb).
  assert (na ≠ 0) as Hna' by (apply of_nat_ne_0; by destruct qa).
  assert (nb ≠ 0) as Hnb' by (apply of_nat_ne_0; by destruct qb).
  rewrite <-(gap_to_weighted_mean (Sa / na) (Sb / nb) na nb) by done.
  replace ((na * (Sa / na) + nb * (Sb / nb)) / (na + nb)) with ((Sa + Sb) / (na + nb));
    [done|].
  assert (na + nb ≠ 0) as Hne.
  { intros Heq.
    assert (0 < na + nb) as Hab.
    { apply Qclt_le_trans with na; [done|].
      rewrite <-(Qcplus_0_r na) at 1. apply Qcplus_le_mono_l. by apply Qclt_le_weak. }
    rewrite Heq in Hab. by apply Qclt_not_le in Hab. }
  field. done.
Qed.

Lemma subgroup_loss_rows (Z Y : list float) (z : nat) :
  length Z = length Y →
  subgroup_loss Z Y z = mse_ones (group_rows z (zip Z Y)).*2.
Proof.
  intros Hlen. unfold subgroup_loss, group_rows.
  rewrite (count_zip _ Z Y), select_zip by done.
  by rewrite <-(length_fmap snd), MSELoss_ones.
Qed.

Lemma group_rows_present (Z Y : list float) (z : nat) :
  length Z = length Y → of_nat z ∈ Z → group_rows z (zip Z Y) ≠ [].
Proof.
  intros Hlen Hin Hnil.
  assert (0 < torch.count ((λ v, Float.eqb v (of_nat z)) <$> Z))%nat as Hc.
  { eapply count_some; [exact Hin|]. rewrite eqb_of_nat. by apply bool_decide_eq_true_2. }
  rewrite (count_zip _ Z Y) in Hc by done.
  unfold group_rows in Hnil. rewrite Hnil in Hc. simpl in Hc. lia.
Qed.

End ProxyGroups.

(** ** The mean-gap proxy is the gap between the two subgroups *)

(** When [Z] holds only the labels 0 and 1, both of them occur, and the
    predictions are finite, the two terms [|loss_z - loss_mean|] that
    [fair_batch_proxy] adds up amount to [|loss_0 - loss_1|]: the distance
    between the losses of the two subgroups (arithmetic on finite values
    being exact). *)
Theorem fair_batch_proxy_group_gap (Z Y_hat : list float) :
  length Z = length Y_hat →
  Forall (λ z, z = of_nat 0 ∨ z = of_nat 1) Z →
  Forall (λ y, isfinite y = true) Y_hat →
  of_nat 0 ∈ Z → of_nat 1 ∈ Z →
  fair_batch_proxy Z Y_hat
  = Ok (Float.abs (subgroup_loss Z Y_hat 0 - subgroup_loss Z Y_hat 1)%F).
Proof.
  intros Hlen HZ HY H0 H1.
  rewrite fair_batch_proxy_rows, !subgroup_loss_rows by done. f_equal.
  apply fair_batch_rows_two_groups.
  - by rewrite snd_zip by lia.
  - apply Forall_forall. intros [z y] Hin%elem_of_zip_l.
    rewrite Forall_forall in HZ. simpl.
    destruct (HZ z Hin) as [-> | ->]; rewrite !eqb_of_nat; [by left|by right].
  - by apply group_rows_present.
  - by apply group_rows_present.
Qed.

Lemma fair_batch_proxy_group_gap_witness :
  let Z := [of_nat 0; of_nat 1; of_nat 1] in
  let Y_hat := [Fin (Q2Qc (1 # 2)); Fin (Q2Qc (3 # 4)); Fin 1] in
  fair_batch_proxy Z Y_hat
  = Ok (Float.abs (subgroup_loss Z Y_hat 0 - subgroup_loss Z Y_hat 1)%F).
Proof.
  apply (fair_batch_proxy_group_gap
           [of_nat 0; of_nat 1; of_nat 1]
           [Fin (Q2Qc (1 # 2)); Fin (Q2Qc (3 # 4)); Fin 1]).
  - reflexivity.
  - repeat (constructor; [first [by left|by right]|]). constructor.
  - repeat constructor.
  - repeat constructor.
  - repeat constructor.
Defined.

(** ** Sign, degenerate groups and sizes *)

(** On a non-empty batch of finite predictions [fair_batch_proxy] returns a
    finite number that is not negative, whatever [Z] holds. *)
Theorem fair_batch_proxy_nonneg (Z Y_hat : list float) :
  length Z = length Y_hat →
  Y_hat ≠ [] →
  Forall (λ y, isfinite y = true) Y_hat →
  ∃ a : Qc, 0 ≤ a ∧ fair_batch_proxy Z Y_hat = Ok (Fin a).
Proof.
  intros Hlen Hne HY. rewrite fair_batch_proxy_rows by done.
  assert (Forall (λ x, isfinite x = true) (zip Z Y_hat).*2) as Hfin
    by (by rewrite snd_zip by lia).
  assert ((zip Z Y_hat).*2 ≠ []) as Hne' by (by rewrite snd_zip by lia).
  unfold fair_batch_rows.
  destruct (mse_ones_finite _ Hne' Hfin) as (m & _ & ->).
  destruct (group_loss_finite 0 _ Hfin) as [g0 ->].
  destruct (group_loss_finite 1 _ Hfin) as [g1 ->].
  unfold Float.sub. cbn [neg Float.add].
  destruct (float_abs_fin (g0 + - m)) as (r0 & Hr0 & ->).
  destruct (float_abs_fin (g1 + - m)) as (r1 & Hr1 & ->).
  unfold zero. cbn [Float.add]. eexists; split; [|done].
  apply Qcplus_nonneg_nonneg; [|done]. by apply Qcplus_nonneg_nonneg.
Qed.

Lemma fair_batch_proxy_nonneg_witness :
  ∃ a : Qc, 0 ≤ a
    ∧ fair_batch_proxy [of_nat 0; of_nat 1; NaN]
        [Fin (Q2Qc (1 # 2)); Fin (Q2Qc (3 # 4)); Fin 1] = Ok (Fin a).
Proof.
  apply (fair_batch_proxy_nonneg [of_nat 0; of_nat 1; NaN]
           [Fin (Q2Qc (1 # 2)); Fin (Q2Qc (3 # 4)); Fin 1]).
  - reflexivity.
  - done.
  - repeat constructor.
Defined.

(** On non-empty [Z] and [Y_hat] of the same length with finite entries
    [covariance_proxy] returns a finite number that is not negative. *)
Theorem covariance_proxy_nonneg (Z Y_hat : list float) :
  length Z = length Y_hat →
  Y_hat ≠ [] →
  Forall (λ z, isfinite z = true) Z →
  Forall (λ y, isfinite y = true) Y_hat →
  ∃ b : Qc, 0 ≤ b ∧ covariance_proxy Z Y_hat = Ok (Fin b).
Proof.
  intros Hlen Hne HZ HY. rewrite covariance_proxy_rows by done.
  assert (zip Z Y_hat ≠ []) as Hzip by (destruct Z, Y_hat; simplify_eq/=; done).
  unfold covariance_rows.
  rewrite fst_zip by lia.
  destruct (mean_finite Z) as [μ ->]; [by destruct Z, Y_hat|done|].
  destruct (mean_finite ((λ r, (r.1 - Fin μ) * r.2)%F <$> zip Z Y_hat)) as [c ->].
  - by destruct (zip Z Y_hat).
  - apply Forall_fmap, Forall_forall. intros [z y] Hin.
    rewrite Forall_forall in HZ, HY.
    pose proof (HZ z (elem_of_zip_l _ _ _ _ Hin)) as Hz.
    pose proof (HY y (elem_of_zip_r _ _ _ _ Hin)) as Hy.
    by destruct z, y.
  - rewrite square_fin. eexists; split; [apply square_nonneg|done].
Qed.

Lemma covariance_proxy_nonneg_witness :
  ∃ b : Qc, 0 ≤ b
    ∧ covariance_proxy [of_nat 0; of_nat 1; of_nat 1]
        [Fin (Q2Qc (1 # 2)); Fin (Q2Qc (3 # 4)); Fin 1] = Ok (Fin b).
Proof.
  apply (covariance_proxy_nonneg [of_nat 0; of_nat 1; of_nat 1]
           [Fin (Q2Qc (1 # 2)); Fin (Q2Qc (3 # 4)); Fin 1]).
  - reflexivity.
  - done.
  - repeat constructor.
  - repeat constructor.
Defined.

Section Degenerate.

Lemma sum_zeros (n : nat) : torch.sum (replicate n zero) = zero.
Proof.
  induction n as [|n IH]; [done|].
  change (zero + torch.sum (replicate n zero) = zero)%F.
  by rewrite IH, float_add_zero_l.
Qed.

Lemma mean_zeros (n : nat) : n ≠ 0%nat → torch.mean (replicate n zero) = zero.
Proof.
  intros Hn. unfold torch.mean. rewrite sum_zeros, length_replicate.
  unfold zero, of_nat. simpl.
  rewrite bool_decide_eq_false_2 by (by apply of_nat_ne_0).
  f_equal. unfold Qcdiv. ring.
Qed.

Lemma mean_constant (c : Qc) (n : nat) :
  n ≠ 0%nat → torch.mean (replicate n (Fin c)) = Fin c.
Proof.
  intros Hn.
  assert (replicate n (Fin c) = Fin <$> replicate n c) as -> by (by rewrite fmap_replicate).
  rewrite mean_fin by (by destruct n). f_equal.
  rewrite length_replicate.
  assert (foldr Qcplus 0 (replicate n c) = Qc_of_Z (Z.of_nat n) * c) as ->.
  { clear Hn. induction n as [|n IH].
    - change (Z.of_nat 0) with 0%Z. rewrite Z2Qc_inj_0.
      change (foldr Qcplus 0 (replicate 0 c)) with 0. ring.
    - rewrite Nat2Z.inj_succ, <-Z.add_1_r, Z2Qc_inj_add, Z2Qc_inj_1.
      change (foldr Qcplus 0 (replicate (S n) c)) with (c + foldr Qcplus 0 (replicate n c)).
      rewrite IH. ring. }
  field. by apply of_nat_ne_0.
Qed.

End Degenerate.

(** When every entry of [Z] is the same finite value (a batch of a single
    subgroup) and the predictions are finite, [covariance_proxy] returns 0:
    the centred [Z] vanishes. *)
Theorem covariance_proxy_single_group (Z Y_hat : list float) (c : Qc) :
  length Z = length Y_hat →
  Y_hat ≠ [] →
  Forall (λ z, z = Fin c) Z →
  Forall (λ y, isfinite y = true) Y_hat →
  covariance_proxy Z Y_hat = Ok zero.
Proof.
  intros Hlen Hne HZ HY.
  assert (Z = replicate (length Y_hat) (Fin c)) as ->.
  { rewrite <-Hlen. clear Hlen. induction HZ as [|z Z -> _ IH]; [done|]. simpl. by f_equal. }
  assert (length Y_hat ≠ 0%nat) as Hn by (by destruct Y_hat).
  unfold covariance_proxy. rewrite mean_constant by done.
  unfold torch.broadcast.
  rewrite bool_decide_eq_true_2 by (by rewrite length_fmap, length_replicate).
  cbn [mbind result_bind]. f_equal.
  assert (zip_with Float.mul ((λ z, (z - Fin c)%F) <$> replicate (length Y_hat) (Fin c)) Y_hat
          = replicate (length Y_hat) zero) as ->.
  { rewrite fmap_replicate, float_sub_diag. clear Hn Hne Hlen HZ.
    induction HY as [|y Y Hy _ IH]; [done|].
    change (zero * y :: zip_with Float.mul (replicate (length Y) zero) Y
            = zero :: replicate (length Y) zero)%F.
    rewrite IH. f_equal.
    destruct y as [q| | |]; simpl in Hy; try done.
    unfold zero. cbn [Float.mul]. f_equal. ring. }
  rewrite mean_zeros by done. unfold zero. rewrite square_fin. f_equal; ring.
Qed.

Lemma covariance_proxy_single_group_witness :
  covariance_proxy [of_nat 1; of_nat 1; of_nat 1]
    [Fin (Q2Qc (1 # 2)); Fin (Q2Qc (3 # 4)); Fin 1] = Ok zero.
Proof.
  apply (covariance_proxy_single_group [of_nat 1; of_nat 1; of_nat 1]
           [Fin (Q2Qc (1 # 2)); Fin (Q2Qc (3 # 4)); Fin 1] (Qc_of_Z 1)).
  - reflexivity.
  - done.
  - repeat constructor.
  - repeat constructor.
Defined.

(** A group vector whose length is not that of the predictions makes
    [fair_batch_proxy] raise [IndexError], at [Y_hat_max[group_idx]], as soon
    as one of its entries is 0 or 1. *)
Theorem fair_batch_proxy_mask_mismatch (Z Y_hat : list float) (z : nat) :
  length Z ≠ length Y_hat →
  (z = 0 ∨ z = 1)%nat →
  of_nat z ∈ Z →
  fair_batch_proxy Z Y_hat
  = Raise (IndexError "The shape of the mask does not match the shape of the indexed tensor").
Proof.
  intros Hlen Hz Hin.
  assert (∀ z' lm pv, torch.count ((λ v, Float.eqb v (of_nat z')) <$> Z) ≠ 0%nat →
            fair_batch_group Z Y_hat lm pv z'
            = Raise (IndexError "The shape of the mask does not match the shape of the indexed tensor"))
    as Hraise.
  { intros z' lm pv Hc. unfold fair_batch_group, torch.index_mask.
    rewrite bool_decide_eq_false_2 by done.
    by rewrite bool_decide_eq_false_2 by (by rewrite length_fmap). }
  assert (0 < torch.count ((λ v, Float.eqb v (of_nat z)) <$> Z))%nat as Hc.
  { eapply count_some; [exact Hin|]. rewrite eqb_of_nat. by apply bool_decide_eq_true_2. }
  unfold fair_batch_proxy. cbn [foldl mbind result_bind].
  destruct Hz as [-> | ->].
  - rewrite Hraise by lia. done.
  - destruct (fair_batch_group Z Y_hat _ zero 0) as [pv|e] eqn:H0.
    + apply Hraise. lia.
    + destruct (decide (torch.count ((λ v, Float.eqb v (of_nat 0)) <$> Z) = 0%nat)) as [Hz0|Hz0].
      * unfold fair_batch_group in H0. by rewrite bool_decide_eq_true_2 in H0 by done.
      * rewrite Hraise in H0 by done. by simplify_eq.
Qed.

Lemma fair_batch_proxy_mask_mismatch_witness :
  fair_batch_proxy [of_nat 0; of_nat 1; of_nat 1] [Fin (Q2Qc (1 # 2)); Fin 1]
  = Raise (IndexError "The shape of the mask does not match the shape of the indexed tensor").
Proof.
  apply (fair_batch_proxy_mask_mismatch [of_nat 0; of_nat 1; of_nat 1]
           [Fin (Q2Qc (1 # 2)); Fin 1] 1).
  - simpl. lia.
  - by right.
  - repeat constructor.
Defined.

(** Rows whose label is neither 0 nor 1 belong to no subgroup.  When [Z]
    holds no 0 and no 1, both subgroups are empty, nothing is indexed (the
    length of [Z] does not matter), and on a non-empty batch of finite
    predictions [fair_batch_proxy] returns twice the loss of the batch. *)
Theorem fair_batch_proxy_no_group (Z Y_hat : list float) :
  Forall (λ v, Float.eqb v (of_nat 0) = false ∧ Float.eqb v (of_nat 1) = false) Z →
  Y_hat ≠ [] →
  Forall (λ y, isfinite y = true) Y_hat →
  let loss_mean := torch.MSELoss Y_hat (torch.ones (length Y_hat)) in
  fair_batch_proxy Z Y_hat = Ok (loss_mean + loss_mean)%F.
Proof.
  intros HZ Hne HY loss_mean.
  assert (∀ z, (z = 0 ∨ z = 1)%nat →
            torch.count ((λ v, Float.eqb v (of_nat z)) <$> Z) = 0%nat) as Hc.
  { intros z Hz. apply count_none. eapply Forall_impl; [exact HZ|].
    intros v [? ?]. by destruct Hz as [-> | ->]. }
  unfold fair_batch_proxy, fair_batch_group. fold loss_mean.
  cbn [foldl mbind result_bind].
  rewrite !bool_decide_eq_true_2 by (apply Hc; lia).
  cbn [mbind result_bind]. f_equal.
  destruct (mse_ones_finite Y_hat Hne HY) as (m & Hm & Hmse).
  assert (loss_mean = Fin m) as -> by (unfold loss_mean; by rewrite MSELoss_ones).
  by rewrite float_abs_zero_sub, float_add_zero_l.
Qed.

Lemma fair_batch_proxy_no_group_witness :
  let Y_hat := [Fin (Q2Qc (1 # 2)); Fin 1] in
  let loss_mean := torch.MSELoss Y_hat (torch.ones (length Y_hat)) in
  fair_batch_proxy [of_nat 2; NaN; of_nat 3] Y_hat = Ok (loss_mean + loss_mean)%F.
Proof.
  apply (fair_batch_proxy_no_group [of_nat 2; NaN; of_nat 3] [Fin (Q2Qc (1 # 2)); Fin 1]).
  - repeat constructor.
  - done.
  - repeat constructor.
Defined.

(** * Further properties of the trainer *)

Section TrainFrame.
Context `{Environment} (self : EIModel).

Lemma untouched_refl L w : untouched L w w.
Proof. by split. Qed.

Lemma untouched_trans L w1 w2 w3 :
  untouched L w1 w2 → untouched L w2 w3 → untouched L w1 w3.
Proof.
  intros [Ha1 Hh1] [Ha2 Hh2]. split; [congruence|].
  intros l Hl Hs. rewrite <-(Hh1 l Hl Hs). apply Hh2; [done|]. by rewrite (Hh1 l Hl Hs).
Qed.

Lemma untouched_subseteq L w w' :
  heap w ⊆ heap w' → model_adv w' = model_adv w → untouched L w w'.
Proof.
  intros Hsub Hadv. split; [done|]. intros l _ [t Ht].
  rewrite Ht. by eapply lookup_weaken.
Qed.

Lemma untouched_only_at L w w' : only_at L w w' → untouched L w w'.
Proof. intros [Hadv Hh]. split; [done|]. intros l Hl _. by apply Hh. Qed.

Lemma wp_train_batch dataset lamb alpha abstol n st bt L w :
  opt_params (optimizer_ st) ⊆ L →
  wp (train_batch self dataset lamb alpha abstol n st bt)
     (λ r w', untouched L w w'
              ∧ match r with
                | Ok st' => opt_params (optimizer_ st') = opt_params (optimizer_ st)
                | Raise _ => True
                end) w.
Proof.
  intros HL. unfold train_batch. wp_step.
  eapply wp_mono; [apply wp_batch_forward|].
  intros [[[loss prev'] adv]|e] w1 [Hsub Hadv]; cbn beta iota;
    [|split; [by apply untouched_subseteq|done]].
  destruct (isnan loss).
  - wp_step. split; [by apply untouched_subseteq|done].
  - wp_step. wp_step. wp_step.
    eapply wp_mono; [by apply (wp_step _ _ L)|].
    intros r w2 (Honly & o' & -> & Hps & _). wp_step. split; [|done].
    eapply untouched_trans; [by apply untouched_subseteq|by apply untouched_only_at].
Qed.

Lemma wp_train_batches dataset lamb alpha abstol n bs st L w :
  opt_params (optimizer_ st) ⊆ L →
  wp (train_batches self dataset lamb alpha abstol n st bs)
     (λ r w', untouched L w w'
              ∧ match r with
                | Ok st' => opt_params (optimizer_ st') = opt_params (optimizer_ st)
                | Raise _ => True
                end) w.
Proof.
  revert st w. induction bs as [|bt bs IH]; intros st w HL.
  { simpl. wp_step. split; [apply untouched_refl|done]. }
  cbn [train_batches]. wp_step.
  eapply wp_mono; [by apply wp_train_batch|].
  intros [st1|e] w1 [Hu Hps]; cbn beta iota; [|done].
  eapply wp_mono; [apply IH; by rewrite Hps|].
  intros r w2 [Hu2 Hps2]. split; [by eapply untouched_trans|].
  destruct r; [congruence|done].
Qed.

Lemma wp_train_epochs dataset lamb alpha n_epochs batch_size abstol n todo epoch st last L w :
  opt_params (optimizer_ st) ⊆ L →
  wp (train_epochs self dataset lamb alpha n_epochs batch_size abstol n todo epoch st last)
     (λ _ w', untouched L w w') w.
Proof.
  revert epoch st last w. induction todo as [|todo IH]; intros epoch st last w HL.
  { cbn [train_epochs]. wp_step. wp_step. destruct last; [|apply untouched_refl].
    wp_step. wp_step. cbn. apply untouched_refl. }
  cbn [train_epochs]. wp_step.
  eapply wp_mono; [by apply (wp_train_batches _ _ _ _ _ _ _ L)|].
  intros [st1|e] w1 [Hu Hps]; cbn beta iota; [|done].
  wp_step. wp_step. cbn. done.
Qed.

End TrainFrame.

(** [train] writes to no tensor but the parameters of the primary model: a
    tensor stored anywhere else is the same after the call, and the
    attribute [model_adv] is not assigned. *)
Theorem train_touches_only_parameters `{Environment} (self : EIModel)
    (dataset : FairnessDataset) (lamb alpha lr : float) (n_epochs batch_size : nat)
    (abstol : float) (pga_n_iters : nat) (w : world) (l : loc) (t : tensor) :
  heap w !! l = Some t →
  l ∉ parameters (model self) →
  let w' := (train self dataset lamb alpha lr n_epochs batch_size abstol pga_n_iters w).2 in
  heap w' !! l = Some t ∧ model_adv w' = model_adv w.
Proof.
  intros Hl Hnot w'.
  pose proof (wp_train_epochs self dataset lamb alpha n_epochs batch_size abstol pga_n_iters
                n_epochs 0
                {| optimizer_ := Adam (parameters (model self))
                                   {| lr := lr; weight_decay := Fin (Q2Qc (1 # 10000));
                                      maximize := false |};
                   prev_loss := zero; batch_losses := [] |}
                None (parameters (model self)) w ltac:(done)) as [Hadv Hh].
  split; [|done]. unfold w', train. rewrite Hh; [done|done|by eexists].
Qed.

Lemma train_touches_only_parameters_witness :
  let spare := {| shape := [2%nat]; data := [DemoData.q 1 1; DemoData.q 2 1] |} in
  let w := DemoData.mk_world
             [ (1%positive, {| shape := [1; 1]%nat; data := [DemoData.q 1 1] |});
               (2%positive, {| shape := [1%nat]; data := [DemoData.q 0 1] |});
               (5%positive, spare) ] in
  let w' := (train (DemoData.ei DemoData.LR) DemoData.ds (DemoData.q 1 2) (DemoData.q 1 10)
               (DemoData.q 1 1000) 20 50 (DemoData.q 1 1) 3 w).2 in
  heap w' !! 5%positive = Some spare ∧ model_adv w' = model_adv w.
Proof.
  intros spare w.
  apply (train_touches_only_parameters (DemoData.ei DemoData.LR) DemoData.ds
           (DemoData.q 1 2) (DemoData.q 1 10) (DemoData.q 1 1000) 20 50
           (DemoData.q 1 1) 3 w 5%positive spare).
  - reflexivity.
  - apply (bool_decide_unpack _). by vm_compute.
Defined.

Section TrainCounts.
Context `{Environment} (self : EIModel).

(** One round of the loop over the batches: the loss of the forward pass is
    recorded and stepped on unless it is NaN. *)
Lemma train_batch_outcome dataset lamb alpha abstol n st bt w st' w' :
  train_batch self dataset lamb alpha abstol n st bt w = (Ok st', w') →
  ∃ loss prev' adv w1,
    batch_forward self dataset lamb alpha abstol n (prev_loss st) bt w
      = (Ok (loss, prev', adv), w1)
    ∧ batch_losses st' = batch_losses st ++ filter (λ x, isnan x = false) [loss]
    ∧ opt_steps (optimizer_ st')
      = (opt_steps (optimizer_ st) + length (filter (λ x, isnan x = false) [loss]))%nat
    ∧ opt_params (optimizer_ st') = opt_params (optimizer_ st)
    ∧ opt_config (optimizer_ st') = opt_config (optimizer_ st).
Proof.
  intros Hrun.
  destruct (batch_forward self dataset lamb alpha abstol n (prev_loss st) bt w)
    as [[[[loss prev'] adv]|e] w1] eqn:Hfw.
  2:{ unfold train_batch, mbind, M_bind in Hrun. by rewrite Hfw in Hrun. }
  exists loss, prev', adv, w1. split; [done|].
  destruct (isnan loss) eqn:Hnan.
  - rewrite (train_batch_nan self _ _ _ _ _ _ _ _ _ _ _ _ Hfw Hnan) in Hrun.
    simplify_eq. rewrite filter_cons_False by (by rewrite Hnan).
    rewrite filter_nil. simpl. rewrite app_nil_r. split_and!; try done; lia.
  - unfold train_batch, mbind, M_bind in Hrun. rewrite Hfw in Hrun. simpl in Hrun.
    rewrite Hnan in Hrun. unfold get, step, mbind, M_bind in Hrun.
    destruct (adam_step_params _ _ _ _ _) as [[[]|e] w2]; [|done].
    unfold mret, M_ret in Hrun. simplify_eq/=.
    rewrite filter_cons_True by done. rewrite filter_nil. simpl.
    split_and!; try done; lia.
Qed.

Lemma train_batches_trace dataset lamb alpha abstol n bs st w st' w' :
  train_batches self dataset lamb alpha abstol n st bs w = (Ok st', w') →
  let losses := forward_losses self dataset lamb alpha abstol n st bs w in
  let new := filter (λ x, isnan x = false) losses in
  length losses = length bs
  ∧ batch_losses st' = batch_losses st ++ new
  ∧ opt_steps (optimizer_ st') = (opt_steps (optimizer_ st) + length new)%nat
  ∧ opt_params (optimizer_ st') = opt_params (optimizer_ st)
  ∧ opt_config (optimizer_ st') = opt_config (optimizer_ st).
Proof.
  revert st w. induction bs as [|bt bs IH]; intros st w Hrun.
  { cbn [train_batches] in Hrun. unfold mret, M_ret in Hrun. simplify_eq.
    cbn. rewrite app_nil_r. split_and!; try done; lia. }
  cbn [train_batches] in Hrun. unfold mbind at 1, M_bind at 1 in Hrun.
  destruct (train_batch self dataset lamb alpha abstol n st bt w) as [[st1|e] w1] eqn:Hb;
    [|done].
  pose proof Hb as Hout.
  apply train_batch_outcome in Hout
    as (loss & prev' & adv & wf & Hfw & Hl1 & Hs1 & Hp1 & Hc1).
  apply IH in Hrun as (Hlen & Hl2 & Hs2 & Hp2 & Hc2).
  cbn [forward_losses]. rewrite Hfw, Hb. cbn zeta.
  rewrite filter_cons.
  rewrite filter_cons, filter_nil in Hl1, Hs1.
  destruct (decide (isnan loss = false)) as [Hn|Hn]; simpl in *.
  - split_and!; [by rewrite Hlen| |lia|congruence|congruence].
    by rewrite Hl2, Hl1, <-(assoc_L (++)).
  - rewrite app_nil_r in Hl1.
    split_and!; [by rewrite Hlen|congruence|lia|congruence|congruence].
Qed.

End TrainCounts.

(** The losses recorded during an epoch and the steps of the optimizer go
    together.  When the loop over the batches completes, every batch has had
    its forward pass; [batch_losses] has grown by the combined losses of
    those passes that are not NaN, in the order of the batches, and by
    nothing else; and the optimizer has taken one step for each recorded
    loss and none besides, on the same parameters and with the same
    configuration. *)
Theorem train_batches_steps `{Environment} (self : EIModel)
    (dataset : FairnessDataset) (lamb curr_alpha abstol : float) (pga_n_iters : nat)
    (st st' : train_state) (bs : list batch) (w : world) :
  (train_batches self dataset lamb curr_alpha abstol pga_n_iters st bs w).1 = Ok st' →
  let losses := forward_losses self dataset lamb curr_alpha abstol pga_n_iters st bs w in
  let new := filter (λ x, isnan x = false) losses in
  length losses = length bs
  ∧ batch_losses st' = batch_losses st ++ new
  ∧ Forall (λ x, isnan x = false) new
  ∧ (length new ≤ length bs)%nat
  ∧ opt_steps (optimizer_ st') = (opt_steps (optimizer_ st) + length new)%nat
  ∧ opt_params (optimizer_ st') = opt_params (optimizer_ st)
  ∧ opt_config (optimizer_ st') = opt_config (optimizer_ st).
Proof.
  destruct (train_batches self dataset lamb curr_alpha abstol pga_n_iters st bs w)
    as [res w'] eqn:Hrun.
  simpl. intros ->.
  destruct (train_batches_trace self _ _ _ _ _ _ _ _ _ _ Hrun)
    as (Hlen & Hl & Hs & Hp & Hc).
  split_and!; try done.
  - apply Forall_forall. by intros x [Hx _]%list_elem_of_filter.
  - rewrite <-Hlen. apply length_filter.
Qed.

Lemma result_value_eq {A} (d : A) (r : result A) :
  match r with Ok _ => true | Raise _ => false end = true → r = Ok (value d r).
Proof. by destruct r. Qed.

Lemma train_batches_steps_witness :
  let self := DemoData.ei DemoData.LR in
  let st := {| optimizer_ := Adam (parameters (model self))
                               {| lr := DemoData.q 1 1000;
                                  weight_decay := DemoData.q 1 10000;
                                  maximize := false |};
               prev_loss := zero; batch_losses := [] |} in
  let bs := [ (ds_X DemoData.ds_nan, ds_Y DemoData.ds_nan, ds_Z DemoData.ds_nan);
              (ds_X DemoData.ds, ds_Y DemoData.ds, ds_Z DemoData.ds) ] in
  let run := train_batches self DemoData.ds (DemoData.q 1 2) zero DemoData.abstol 3
               st bs DemoData.w_LR in
  let st' := value st run.1 in
  let losses := forward_losses self DemoData.ds (DemoData.q 1 2) zero DemoData.abstol 3
                  st bs DemoData.w_LR in
  let new := filter (λ x, isnan x = false) losses in
  length losses = length bs
  ∧ batch_losses st' = batch_losses st ++ new
  ∧ Forall (λ x, isnan x = false) new
  ∧ (length new ≤ length bs)%nat
  ∧ opt_steps (optimizer_ st') = (opt_steps (optimizer_ st) + length new)%nat
  ∧ opt_params (optimizer_ st') = opt_params (optimizer_ st)
  ∧ opt_config (optimizer_ st') = opt_config (optimizer_ st).
Proof.
  intros self st bs run st'.
  apply (train_batches_steps self DemoData.ds (DemoData.q 1 2) zero DemoData.abstol 3
           st st' bs DemoData.w_LR).
  apply result_value_eq. vm_compute. reflexivity.
Defined.

(** With at least one epoch configured, what a call of [train] leaves behind
    is what the first pass over the batches leaves behind: the parameters
    are those reached after the batches of epoch 0, trained with the radius
    [alpha * (0 / n_epochs)] and a fresh optimizer; no later epoch
    contributes.  (The model is to have parameters: [optim.Adam] refuses an
    empty parameter list, which [Adam] does not model.) *)
Theorem train_runs_first_epoch `{Environment} (self : EIModel)
    (dataset : FairnessDataset) (lamb alpha lr : float) (n_epochs batch_size : nat)
    (abstol : float) (pga_n_iters : nat) (w : world) :
  n_epochs ≠ 0%nat →
  parameters (model self) ≠ [] →
  let st0 := {| optimizer_ := Adam (parameters (model self))
                                {| lr := lr; weight_decay := Fin (Q2Qc (1 # 10000));
                                   maximize := false |};
                prev_loss := zero; batch_losses := [] |} in
  (train self dataset lamb alpha lr n_epochs batch_size abstol pga_n_iters w).2
  = (train_batches self dataset lamb (curr_alpha alpha 0 n_epochs) abstol pga_n_iters
       st0 (DataLoader dataset batch_size 0) w).2.
Proof.
  intros Hn _ st0. unfold train. fold st0.
  destruct n_epochs as [|n]; [done|].
  destruct (train_epochs_raises self dataset lamb alpha (S n) batch_size abstol
              pga_n_iters (S n) 0 st0 None w) as (e & w' & -> & _ & ->).
  done.
Qed.

Lemma train_runs_first_epoch_witness :
  let self := DemoData.ei DemoData.LR in
  let st0 := {| optimizer_ := Adam (parameters (model self))
                                {| lr := DemoData.q 1 1000;
                                   weight_decay := Fin (Q2Qc (1 # 10000));
                                   maximize := false |};
                prev_loss := zero; batch_losses := [] |} in
  (train self DemoData.ds (DemoData.q 1 2) (DemoData.q 1 10) (DemoData.q 1 1000) 20 50
     DemoData.abstol 3 DemoData.w_LR).2
  = (train_batches self DemoData.ds (DemoData.q 1 2)
       (curr_alpha (DemoData.q 1 10) 0 20) DemoData.abstol 3
       st0 (DataLoader DemoData.ds 50 0) DemoData.w_LR).2.
Proof.
  apply (train_runs_first_epoch (DemoData.ei DemoData.LR) DemoData.ds (DemoData.q 1 2)
           (DemoData.q 1 10) (DemoData.q 1 1000) 20 50 DemoData.abstol 3 DemoData.w_LR).
  - lia.
  - by vm_compute.
Defined.

(** * Further properties of [predict] *)

Section PredictReturns.
Context `{Environment} (self : EIModel).

(** Without a round of the ascent the inner solver hands back the initial
    fairness value, 0, and the [prev_loss] it was given. *)
Lemma inner_solver_no_round b X_hat_max Z_e abstol prev w model_adv prev' fl w1 :
  inner_solver self b X_hat_max Z_e abstol 0 prev w = (Ok (model_adv, prev', fl), w1) →
  prev' = prev ∧ fl = zero.
Proof.
  unfold inner_solver. intros Hrun.
  unfold mbind at 1, M_bind at 1 in Hrun.
  destruct (deepcopy (model self) w) as [[copy|e] wc]; [|done].
  destruct (weight_min b), (weight_max b), (bias_min b), (bias_max b);
    try (cbn in Hrun; done).
  cbn [local] in Hrun. unfold mbind, M_bind, mret, M_ret in Hrun.
  destruct (bounded_init copy _ _ wc) as [[m|e] wb]; [|done].
  cbn [pga_loop] in Hrun. unfold mret, M_ret in Hrun. by simplify_eq.
Qed.

Lemma bind_Ok_inv {A B} (c : M A) (f : A → M B) w b w' :
  (c ≫= f) w = (Ok b, w') → ∃ a w1, c w = (Ok a, w1) ∧ f a w1 = (Ok b, w').
Proof.
  unfold mbind, M_bind. destruct (c w) as [[a|e] w1]; [|done]. by exists a, w1.
Qed.

Lemma lift_Ok_inv {A} (r : result A) w a w' : lift r w = (Ok a, w') → r = Ok a ∧ w' = w.
Proof. unfold lift. by intros [= -> ->]. Qed.

Lemma index_mask_Ok_inv {A} (t : list A) mask s :
  torch.index_mask t mask = Ok s → s = torch.select t mask.
Proof. unfold torch.index_mask. case_bool_decide; by intros [= <-]. Qed.

Lemma predict_inv dataset alpha abstol n w Y_hat Y_hat_max pred_loss fair_loss w' :
  predict self dataset alpha abstol n w
    = (Ok (Y_hat, Y_hat_max, pred_loss, fair_loss), w') →
  let θ := state_dict w (model self) in
  let below := (λ y, Float.ltb y (tau self)) <$> forward θ (ds_X dataset) in
  let X_e := torch.select (ds_X dataset) below in
  let Z_e := torch.select (ds_Z dataset) below in
  (0 < torch.count below)%nat
  ∧ Y_hat = forward θ (ds_X dataset)
  ∧ pred_loss = BCELoss Y_hat (ds_Y dataset)
  ∧ ∃ box model_adv prev' w1,
      predict_box w (model self) alpha = Ok box
      ∧ inner_solver self box (effort self θ dataset X_e) Z_e abstol n zero w
        = (Ok (model_adv, prev', fair_loss), w1)
      ∧ w' = set_model_adv model_adv w1
      ∧ Y_hat_max = forward (state_dict w1 model_adv) (effort self θ dataset X_e).
Proof.
  intros Hrun θ below X_e Z_e.
  unfold predict in Hrun.
  apply bind_Ok_inv in Hrun as (w0 & w0' & [= <- <-] & Hrun).
  fold θ in Hrun. fold below in Hrun.
  apply bind_Ok_inv in Hrun as ([fl xhm] & w2 & Hbranch & Hrun).
  case_bool_decide as Hc.
  - apply bind_Ok_inv in Hbranch as (X_e' & ? & [HX ->]%lift_Ok_inv & Hbranch).
    apply bind_Ok_inv in Hbranch as (Z_e' & ? & [HZ ->]%lift_Ok_inv & Hbranch).
    apply index_mask_Ok_inv in HX, HZ. subst X_e' Z_e'.
    fold X_e in Hbranch. fold Z_e in Hbranch.
    apply bind_Ok_inv in Hbranch as (box & ? & [Hbox ->]%lift_Ok_inv & Hbranch).
    apply bind_Ok_inv in Hbranch as ([[model_adv prev'] fl'] & w1 & Hsolve & Hbranch).
    unfold mbind, M_bind, modify, mret, M_ret in Hbranch. simplify_eq.
    unfold mbind, M_bind, get, attribute, local, mret, M_ret in Hrun.
    cbn in Hrun. simplify_eq.
    split_and!; try done. eexists _, _, _, _. split_and!; [exact Hbox|exact Hsolve|done..].
  - apply bind_Ok_inv in Hbranch as (copy & wc & _ & Hbranch).
    unfold mbind, M_bind, modify, mret, M_ret in Hbranch. by simplify_eq.
Qed.

End PredictReturns.

(** [predict] returns only when some prediction is below [tau].  What it
    then returns: the predictions of the primary model on all the rows and
    their loss against [dataset.Y]; the predictions of the adversarial model
    on the rows below [tau] after effort; and, as the fairness loss, the
    value that the ascent loop of the inner solver, run on those rows within
    the box of [predict], last gave to [fair_loss] (the proxy is not
    evaluated again after the loop), which is the initial 0 when
    [pga_n_iters] is 0.  The adversarial model the solver returns is stored
    as [self.model_adv], it is made of new parameter objects, and every
    tensor stored before the call is still in place. *)
Theorem predict_returns `{Environment} (self : EIModel) (dataset : FairnessDataset)
    (alpha abstol : float) (pga_n_iters : nat) (w w' : world)
    (Y_hat Y_hat_max : list float) (pred_loss fair_loss : float) :
  predict self dataset alpha abstol pga_n_iters w
    = (Ok (Y_hat, Y_hat_max, pred_loss, fair_loss), w') →
  let θ := state_dict w (model self) in
  let below := (λ y, Float.ltb y (tau self)) <$> forward θ (ds_X dataset) in
  let X_hat_max := effort self θ dataset (torch.select (ds_X dataset) below) in
  let Z_e := torch.select (ds_Z dataset) below in
  (0 < torch.count below)%nat
  ∧ Y_hat = forward θ (ds_X dataset)
  ∧ pred_loss = BCELoss Y_hat (ds_Y dataset)
  ∧ (pga_n_iters = 0%nat → fair_loss = zero)
  ∧ heap w ⊆ heap w'
  ∧ ∃ box adversary prev' w1,
      predict_box w (model self) alpha = Ok box
      ∧ inner_solver self box X_hat_max Z_e abstol pga_n_iters zero w
        = (Ok (adversary, prev', fair_loss), w1)
      ∧ w' = set_model_adv adversary w1
      ∧ model_adv w' = Some adversary
      ∧ outside (heap w) (locs adversary)
      ∧ Y_hat_max = forward (state_dict w' adversary) X_hat_max.
Proof.
  intros Hrun θ below X_hat_max Z_e.
  apply predict_inv in Hrun
    as (Hc & HY & Hp & box & madv & prev' & w1 & Hbox & Hsolve & -> & Hmax).
  fold θ in Hsolve. fold below in Hsolve. fold X_hat_max in Hsolve. fold Z_e in Hsolve.
  pose proof (wp_inner_solver self box X_hat_max Z_e abstol pga_n_iters zero w) as Hs.
  unfold wp in Hs. rewrite Hsolve in Hs. destruct Hs as (Hsub & _ & Hout & _).
  split_and!; try done.
  - intros ->. by apply inner_solver_no_round in Hsolve as [_ ->].
  - exists box, madv, prev', w1. by split_and!.
Qed.

Lemma predict_returns_witness :
  let self := DemoData.ei DemoData.LR in
  let w := DemoData.w_LR in
  let run := predict self DemoData.ds (DemoData.q 1 10) DemoData.abstol 2 w in
  let out := value ([], [], NaN, NaN) run.1 in
  let θ := state_dict w (model self) in
  let below := (λ y, Float.ltb y (tau self)) <$> forward θ (ds_X DemoData.ds) in
  let X_hat_max := effort self θ DemoData.ds (torch.select (ds_X DemoData.ds) below) in
  let Z_e := torch.select (ds_Z DemoData.ds) below in
  (0 < torch.count below)%nat
  ∧ out.1.1.1 = forward θ (ds_X DemoData.ds)
  ∧ out.1.2 = BCELoss out.1.1.1 (ds_Y DemoData.ds)
  ∧ (2%nat = 0%nat → out.2 = zero)
  ∧ heap w ⊆ heap run.2
  ∧ ∃ box adversary prev' w1,
      predict_box w (model self) (DemoData.q 1 10) = Ok box
      ∧ inner_solver self box X_hat_max Z_e DemoData.abstol 2 zero w
        = (Ok (adversary, prev', out.2), w1)
      ∧ run.2 = set_model_adv adversary w1
      ∧ model_adv run.2 = Some adversary
      ∧ outside (heap w) (locs adversary)
      ∧ out.1.1.2 = forward (state_dict run.2 adversary) X_hat_max.
Proof.
  intros self w run out.
  apply (predict_returns self DemoData.ds (DemoData.q 1 10) DemoData.abstol 2
           w run.2 out.1.1.1 out.1.1.2 out.1.2 out.2).
  vm_compute. reflexivity.
Defined.

(** * The projection onto the box of a single layer *)

Section Box.

Lemma float_clamp_box (x : float) (c r : Qc) :
  0 ≤ r → isnan x = false →
  let y := Float.clamp x (Fin c - Fin r)%F (Fin c + Fin r)%F in
  Float.leb (Fin c - Fin r)%F y && Float.leb y (Fin c + Fin r)%F = true.
Proof.
  intros Hr Hx. unfold Float.clamp, Float.sub. cbn [neg Float.add isnan orb].
  rewrite Hx. cbn [orb].
  assert (c + - r ≤ c + r) as Hle.
  { apply Qcplus_le_mono_l. apply Qcle_trans with 0; [|done].
    apply Qcopp_le_compat in Hr. by replace (- 0) with 0 in Hr by ring. }
  destruct x as [a| | |]; try done; cbn [Float.ltb Float.leb].
  - case_bool_decide as H1.
    + cbn [Float.ltb]. rewrite bool_decide_eq_false_2 by (by apply Qcle_not_lt).
      cbn [Float.leb]. rewrite !bool_decide_eq_true_2; [done|done|apply Qcle_refl].
    + cbn [Float.ltb]. apply Qcnot_lt_le in H1. case_bool_decide as H2.
      * cbn [Float.leb]. rewrite !bool_decide_eq_true_2; [done|apply Qcle_refl|done].
      * apply Qcnot_lt_le in H2. cbn [Float.leb].
        by rewrite !bool_decide_eq_true_2.
  - cbn [Float.leb]. rewrite !bool_decide_eq_true_2; [done|apply Qcle_refl|done].
  - cbn [Float.ltb]. rewrite bool_decide_eq_false_2 by (by apply Qcle_not_lt).
    cbn [Float.leb]. rewrite !bool_decide_eq_true_2; [done|done|apply Qcle_refl].
Qed.

Lemma zip3_clamp_box (r : Qc) (d p : list float) :
  0 ≤ r → length d = length p →
  Forall (λ x, isnan x = false) d →
  Forall (λ x, isfinite x = true) p →
  let d' := Tensor.zip3_with Float.clamp d ((λ x, (x - Fin r)%F) <$> p)
              ((λ x, (x + Fin r)%F) <$> p) in
  length d' = length p
  ∧ forallb (λ xc, Float.leb (xc.2 - Fin r)%F xc.1 && Float.leb xc.1 (xc.2 + Fin r)%F)
      (zip d' p) = true.
Proof.
  intros Hr Hlen Hd Hp. revert p Hlen Hp.
  induction Hd as [|x d Hx _ IH]; intros [|c p] Hlen Hp; simplify_eq/=; [done|].
  apply Forall_cons in Hp as [Hc Hp].
  destruct (IH p ltac:(done) Hp) as [Hl Hb].
  split; [by rewrite Hl|]. rewrite Hb, andb_true_r.
  destruct c as [c| | |]; try done. by apply float_clamp_box.
Qed.

Lemma tensor_clamp_box (r : Qc) (t p : tensor) :
  0 ≤ r → comparable t p →
  Forall (λ x, isfinite x = true) (data p) →
  ∃ t', Tensor.clamp t (Tensor.sub_scalar p (Fin r)) (Tensor.add_scalar p (Fin r)) = Ok t'
        ∧ tensor_in_box t' p (Fin r) = true.
Proof.
  intros Hr (Hs & Hl & Hn) Hp. unfold Tensor.clamp. simpl.
  rewrite bool_decide_eq_true_2 by done.
  eexists; split; [done|].
  destruct (zip3_clamp_box r (data t) (data p) Hr Hl Hn Hp) as [Hl' Hb].
  unfold tensor_in_box. simpl.
  by rewrite !bool_decide_eq_true_2, Hb.
Qed.

Lemma leb_between_finite (a b : Qc) (x : float) :
  Float.leb (Fin a) x && Float.leb x (Fin b) = true → isfinite x = true.
Proof. by destruct x. Qed.

Lemma in_box_comparable (r : Qc) (t p : tensor) :
  tensor_in_box t p (Fin r) = true →
  Forall (λ x, isfinite x = true) (data p) →
  shape t = shape p ∧ length (data t) = length (data p)
  ∧ Forall (λ x, isfinite x = true) (data t).
Proof.
  unfold tensor_in_box.
  intros [[Hs%bool_decide_eq_true Hl%bool_decide_eq_true]%andb_true_iff Hb]%andb_true_iff Hp.
  split_and!; try done.
  rewrite forallb_forall in Hb. apply Forall_forall. intros x Hx.
  apply list_elem_of_lookup in Hx as [i Hi].
  destruct (lookup_lt_is_Some_2 (data p) i) as [c Hc].
  { rewrite <-Hl. by eapply lookup_lt_Some. }
  assert ((x, c) ∈ zip (data t) (data p)) as Hin.
  { apply list_elem_of_lookup. exists i. by rewrite lookup_zip_with, Hi, Hc. }
  apply list_elem_of_In, Hb in Hin. cbn [fst snd] in Hin.
  rewrite Forall_forall in Hp.
  pose proof (Hp c (list_elem_of_lookup_2 _ _ _ Hc)) as Hfc.
  destruct c as [c| | |]; try done.
  exact (leb_between_finite (c + - r) (c + r) x Hin).
Qed.

Lemma finite_not_nan (l : list float) :
  Forall (λ x, isfinite x = true) l → Forall (λ x, isnan x = false) l.
Proof. intros Hl. eapply Forall_impl; [exact Hl|]. by intros []. Qed.

(** What an optimizer step makes of a tensor of the box can be projected. *)
Lemma compatible_comparable (t' t p : tensor) :
  compatible t' t → shape t = shape p → length (data t) = length (data p) →
  Forall (λ x, isfinite x = true) (data t) →
  comparable t' p.
Proof.
  intros [Hs Hd] Hsp Hlp Hfin. split_and!.
  - congruence.
  - rewrite <-Hlp. by eapply Forall2_length.
  - clear Hs Hsp Hlp. induction Hd as [|x c d cs Hx _ IH]; [done|].
    apply Forall_cons in Hfin as [Hc Hfin]. constructor; [|by apply IH].
    destruct Hx as [?| ->]; [done|]. by destruct c.
Qed.

Lemma run_clamp_attr_box l t lo hi t' w :
  heap w !! l = Some t → Tensor.clamp t lo hi = Ok t' →
  clamp_attr (Some l) lo hi w = (Ok tt, set_heap (<[l := t']> (heap w)) w).
Proof.
  intros Hl Hc. unfold clamp_attr, mbind, M_bind, get, lift, read.
  by rewrite (lookup_total_correct _ _ _ Hl), Hc.
Qed.

(** On a model whose only parameters are the weight [lw] and the bias [lb]
    of one layer, the projection puts both into their boxes. *)
Lemma clamp_layers_box pre post lw lb tw tb t1 t2 (r : Qc) w :
  0 ≤ r →
  Forall paramless pre → Forall paramless post → lw ≠ lb →
  heap w !! lw = Some t1 → heap w !! lb = Some t2 →
  comparable t1 tw → comparable t2 tb →
  Forall (λ x, isfinite x = true) (data tw) →
  Forall (λ x, isfinite x = true) (data tb) →
  ∃ t1' t2',
    clamp_layers (pre ++ {| weight := Some lw; bias := Some lb |} :: post)
      (Tensor.sub_scalar tw (Fin r), Tensor.add_scalar tw (Fin r))
      (Tensor.sub_scalar tb (Fin r), Tensor.add_scalar tb (Fin r)) w
    = (Ok tt, set_heap (<[lb := t2']> (<[lw := t1']> (heap w))) w)
    ∧ tensor_in_box t1' tw (Fin r) = true
    ∧ tensor_in_box t2' tb (Fin r) = true.
Proof.
  intros Hr Hpre Hpost Hne H1 H2 Hc1 Hc2 Hfw Hfb.
  destruct (tensor_clamp_box r t1 tw Hr Hc1 Hfw) as (t1' & Hcl1 & Hb1).
  destruct (tensor_clamp_box r t2 tb Hr Hc2 Hfb) as (t2' & Hcl2 & Hb2).
  exists t1', t2'. split; [|done].
  rewrite for_each_paramless by done.
  unfold clamp_layers.
  change (for_each (?x :: ?xs) ?body) with (body x ;; for_each xs body).
  cbn beta. erewrite run_bind.
  2:{ erewrite run_bind; [|by apply (run_clamp_attr_box lw t1 _ _ t1' w)].
      apply (run_clamp_attr_box lb t2 _ _ t2'); [|done].
      simpl. by rewrite lookup_insert_ne. }
  apply (clamp_layers_paramless post). done.
Qed.

End Box.

Section BoxSolver.
Context `{Environment} (self : EIModel).

(** Every round of the ascent ends inside the box. *)
Lemma pga_loop_box n pre post lw lb tw tb (r : Qc) X_hat_max Z_e abstol :
  (∀ n mo k i x g, isfinite x = true → isfinite g = true →
     isnan (adam_update adversarial_config n mo k i x g) = false) →
  (∀ θ k i, isfinite (autograd (fair_objective self Z_e X_hat_max) θ k i) = true) →
  (∀ θ, ∃ v, proxy self Z_e (forward θ X_hat_max) = Ok v) →
  0 ≤ r →
  Forall (λ x, isfinite x = true) (data tw) →
  Forall (λ x, isfinite x = true) (data tb) →
  Forall paramless pre → Forall paramless post → lw ≠ lb →
  ∀ o prev fair w t1 t2,
  opt_params o = [lw; lb] → opt_config o = adversarial_config →
  heap w !! lw = Some t1 → heap w !! lb = Some t2 →
  tensor_in_box t1 tw (Fin r) = true → tensor_in_box t2 tb (Fin r) = true →
  wp (pga_loop self n (pre ++ {| weight := Some lw; bias := Some lb |} :: post)
        X_hat_max Z_e
        (Tensor.sub_scalar tw (Fin r), Tensor.add_scalar tw (Fin r))
        (Tensor.sub_scalar tb (Fin r), Tensor.add_scalar tb (Fin r))
        abstol o prev fair)
     (λ res w', (∃ pf, res = Ok pf)
                ∧ ∃ t1' t2', heap w' !! lw = Some t1' ∧ heap w' !! lb = Some t2'
                             ∧ tensor_in_box t1' tw (Fin r) = true
                             ∧ tensor_in_box t2' tb (Fin r) = true) w.
Proof.
  intros Hnn Hgrad Hproxy Hr Hfw Hfb Hpre Hpost Hne.
  induction n as [|n IH]; intros o prev fair w t1 t2 Ho Hcfg Hw Hb Hb1 Hb2.
  { simpl. wp_step. split; [by eexists|]. by exists t1, t2. }
  destruct (in_box_comparable r t1 tw Hb1 Hfw) as (Hs1 & Hl1 & Hf1).
  destruct (in_box_comparable r t2 tb Hb2 Hfb) as (Hs2 & Hl2 & Hf2).
  cbn [pga_loop]. wp_step. wp_step. wp_step. wp_step.
  destruct (Hproxy (state_dict w (pre ++ {| weight := Some lw; bias := Some lb |} :: post)))
    as [v ->].
  wp_step.
  destruct (step_single o (autograd (fair_objective self Z_e X_hat_max)
              (state_dict w (pre ++ {| weight := Some lw; bias := Some lb |} :: post)))
              lw lb t1 t2 w) as (o' & s1 & s2 & Hstep & Ho' & Hcfg' & Hc1 & Hc2);
    [by rewrite Hcfg|done..|].
  eapply wp_of_run; [exact Hstep|]. wp_step.
  destruct (clamp_layers_box pre post lw lb tw tb s1 s2 r
              (set_heap (<[lb := s2]> (<[lw := s1]> (heap w))) w))
    as (t1' & t2' & Hclamp & Hb1' & Hb2'); try done.
  { by rewrite set_heap_lookup, lookup_insert_ne, lookup_insert_eq. }
  { by rewrite set_heap_lookup, lookup_insert_eq. }
  { by eapply compatible_comparable. }
  { by eapply compatible_comparable. }
  eapply wp_of_run; [exact Hclamp|].
  cbn beta iota.
  assert (∀ h, (<[lb := t2']> (<[lw := t1']> h) : gmap loc tensor) !! lw = Some t1') as Hlw.
  { intros h. by rewrite lookup_insert_ne, lookup_insert_eq. }
  assert (∀ h, (<[lb := t2']> (<[lw := t1']> h) : gmap loc tensor) !! lb = Some t2') as Hlb.
  { intros h. by rewrite lookup_insert_eq. }
  destruct (Float.ltb _ _).
  - wp_step. split; [by eexists|]. exists t1', t2'. split_and!; [apply Hlw|apply Hlb|done..].
  - apply (IH _ _ _ _ t1' t2'); [done|congruence|apply Hlw|apply Hlb|done..].
Qed.

Lemma forallb_paramless_values (radius : float) (a b : list layer) :
  forallb (λ lv : layer_values * layer_values,
             attr_in_box lv.1.1 lv.2.1 radius && attr_in_box lv.1.2 lv.2.2 radius)
    (zip ((λ _, (None, None)) <$> a) ((λ _, (None, None)) <$> b)) = true.
Proof. revert b. induction a as [|x a IH]; intros [|y b]; simpl; auto. Qed.

Lemma in_box_single (radius : float) (pre' post' pre post : list layer) t1 t2 tw tb :
  length pre' = length pre → length post' = length post →
  tensor_in_box t1 tw radius = true → tensor_in_box t2 tb radius = true →
  in_box (((λ _, (None, None)) <$> pre') ++ (Some t1, Some t2)
            :: ((λ _, (None, None)) <$> post'))
         (((λ _, (None, None)) <$> pre) ++ (Some tw, Some tb)
            :: ((λ _, (None, None)) <$> post)) radius = true.
Proof.
  intros Hpre Hpost H1 H2. unfold in_box.
  apply andb_true_iff. split.
  { apply bool_decide_eq_true_2.
    rewrite !length_app, !length_cons, !length_fmap. congruence. }
  clear Hpost. revert pre Hpre.
  induction pre' as [|x pre' IH]; intros [|y pre] Hpre; simplify_eq/=.
  - apply andb_true_iff. split; [|apply forallb_paramless_values].
    apply andb_true_iff. by split.
  - by apply IH.
Qed.

(** On a model whose parameters are those of one layer, the inner solver
    returns, and its adversarial model lies in the box. *)
Lemma inner_solver_box pre post lw lb (r : Qc) X_hat_max Z_e abstol n prev w :
  0 ≤ r →
  model self = pre ++ {| weight := Some lw; bias := Some lb |} :: post →
  Forall paramless pre → Forall paramless post → lw ≠ lb →
  Forall (λ x, isfinite x = true) (data (read w lw)) → is_Some (heap w !! lw) →
  Forall (λ x, isfinite x = true) (data (read w lb)) → is_Some (heap w !! lb) →
  (∀ n mo k i x g, isfinite x = true → isfinite g = true →
     isnan (adam_update adversarial_config n mo k i x g) = false) →
  (∀ θ k i, isfinite (autograd (fair_objective self Z_e X_hat_max) θ k i) = true) →
  (∀ θ, ∃ v, proxy self Z_e (forward θ X_hat_max) = Ok v) →
  ∃ adversary prev' fair w1,
    inner_solver self (train_box w (model self) (Fin r)) X_hat_max Z_e abstol n prev w
      = (Ok (adversary, prev', fair), w1)
    ∧ in_box (state_dict w1 adversary) (state_dict w (model self)) (Fin r) = true.
Proof.
  intros Hr Hm Hpre Hpost Hne Hfw [tw Hw] Hfb [tb Hb] Hnn Hgrad Hproxy.
  unfold read in Hfw, Hfb.
  rewrite (lookup_total_correct _ _ _ Hw) in Hfw.
  rewrite (lookup_total_correct _ _ _ Hb) in Hfb.
  assert (wp (inner_solver self (train_box w (model self) (Fin r)) X_hat_max Z_e abstol n prev)
            (λ res w1, ∃ adversary prev' fair,
               res = Ok (adversary, prev', fair)
               ∧ in_box (state_dict w1 adversary) (state_dict w (model self)) (Fin r) = true)
            w) as Hwp.
  { unfold inner_solver. rewrite Hm, train_box_single by done.
    unfold read. rewrite (lookup_total_correct _ _ _ Hw), (lookup_total_correct _ _ _ Hb).
    cbn [weight_min weight_max bias_min bias_max].
    wp_step. eapply wp_mono; [apply wp_deepcopy_memo|].
    intros res wc (copy & memo & -> & Hcopy & (Hsub & Hmemo & Hinj) & _).
    destruct (layer_copy_single _ _ _ _ _ _ Hcopy Hpre Hpost)
      as (pre' & post' & lw' & lb' & -> & Hpre' & Hpost' & Hlpre & Hlpost & Hmw & Hmb).
    assert (lw' ≠ lb') as Hne' by (intros <-; by apply Hne, (Hinj _ _ _ Hmw Hmb)).
    assert (heap wc !! lw' = Some tw) as Hcw.
    { destruct (Hmemo _ _ Hmw) as (_ & _ & ->); by eauto. }
    assert (heap wc !! lb' = Some tb) as Hcb.
    { destruct (Hmemo _ _ Hmb) as (_ & _ & ->); by eauto. }
    wp_run. unfold bounded_init. wp_step.
    destruct (clamp_layers_box pre' post' lw' lb' tw tb tw tb r wc)
      as (t1 & t2 & Hclamp & Hb1 & Hb2); try done.
    { split_and!; [done|done|by apply finite_not_nan]. }
    { split_and!; [done|done|by apply finite_not_nan]. }
    eapply wp_of_run; [exact Hclamp|].
    wp_run.
    eapply wp_mono.
    { apply (pga_loop_box n pre' post' lw' lb' tw tb r X_hat_max Z_e abstol
               Hnn Hgrad Hproxy Hr Hfw Hfb Hpre' Hpost' Hne' _ _ _ _ t1 t2); try done.
      - by apply parameters_single.
      - by rewrite set_heap_lookup, lookup_insert_ne, lookup_insert_eq.
      - by rewrite set_heap_lookup, lookup_insert_eq. }
    intros res w1 ([[p f] ->] & t1' & t2' & H1w & H1b & Hb1' & Hb2'). wp_step.
    eexists _, _, _. split; [done|].
    rewrite !state_dict_single by done. unfold read.
    rewrite (lookup_total_correct _ _ _ H1w), (lookup_total_correct _ _ _ H1b).
    rewrite (lookup_total_correct _ _ _ Hw), (lookup_total_correct _ _ _ Hb).
    by apply in_box_single. }
  apply wp_run_eq in Hwp as (res & w1 & Heq & madv & p & f & -> & Hbox).
  by exists madv, p, f, w1.
Qed.

End BoxSolver.

(** For a model whose parameters are the weight and the bias of a single
    layer, with finite values, and a finite radius that is not negative: the
    inner solver returns after any number of rounds, and every weight and
    bias of the adversarial model it returns lies, element by element,
    within the radius of the parameter of the primary model it was copied
    from (provided the proxy returns a value, the gradients are finite and
    the optimizer turns finite values and gradients into numbers). *)
Theorem single_layer_box_invariant `{Environment} (self : EIModel) (r : Qc)
    (pre post : list layer) (lw lb : loc) (X_hat_max : features) (Z_e : list float)
    (abstol : float) (pga_n_iters : nat) (prev_loss : float) (w : world) :
  0 ≤ r →
  model self = pre ++ {| weight := Some lw; bias := Some lb |} :: post →
  Forall paramless pre → Forall paramless post → lw ≠ lb →
  Forall (λ x, isfinite x = true) (data (read w lw)) → is_Some (heap w !! lw) →
  Forall (λ x, isfinite x = true) (data (read w lb)) → is_Some (heap w !! lb) →
  (∀ n mo k i x g, isfinite x = true → isfinite g = true →
     isnan (adam_update adversarial_config n mo k i x g) = false) →
  (∀ θ k i, isfinite (autograd (fair_objective self Z_e X_hat_max) θ k i) = true) →
  (∀ θ, ∃ v, proxy self Z_e (forward θ X_hat_max) = Ok v) →
  ∃ adversary prev' fair w1,
    inner_solver self (train_box w (model self) (Fin r)) X_hat_max Z_e abstol
      pga_n_iters prev_loss w
      = (Ok (adversary, prev', fair), w1)
    ∧ in_box (state_dict w1 adversary) (state_dict w (model self)) (Fin r) = true.
Proof. intros. by eapply inner_solver_box. Qed.

Lemma single_layer_box_invariant_witness :
  let self := DemoData.ei DemoData.LR in
  let X_hat_max : features := [[DemoData.q 1 4]; [DemoData.q 1 8]] in
  let Z_e := [DemoData.q 0 1; DemoData.q 1 1] in
  let w := DemoData.w_LR in
  ∃ adversary prev' fair w1,
    inner_solver self (train_box w (model self) (Fin (Q2Qc (1 # 10)))) X_hat_max Z_e
      DemoData.abstol 5 zero w
      = (Ok (adversary, prev', fair), w1)
    ∧ in_box (state_dict w1 adversary) (state_dict w (model self)) (Fin (Q2Qc (1 # 10)))
      = true.
Proof.
  intros self X_hat_max Z_e w.
  apply (single_layer_box_invariant self (Q2Qc (1 # 10)) []
           [ {| weight := None; bias := None |} ]
           1%positive 2%positive X_hat_max Z_e DemoData.abstol 5 zero w).
  - by vm_compute.
  - reflexivity.
  - constructor.
  - by repeat constructor.
  - done.
  - vm_compute. by repeat constructor.
  - vm_compute. by eexists.
  - vm_compute. by repeat constructor.
  - vm_compute. by eexists.
  - intros n mo k i [x| | |] [g| | |]; by vm_compute.
  - reflexivity.
  - intros θ. eexists. apply fair_batch_proxy_rows. reflexivity.
Defined.
